(** * EduTrack: fee ledger cascade and roadmap hierarchy

    A shallow embedding of the two pieces of logic of [core/models.py],
    [core/admin.py] and [core/views.py] that carry invariants:

    - [FeesStatus.save] with its two recompute steps
      ([_update_parent_pending], [_check_discontinuation]), the helper
      [is_overdue] and the bulk admin actions of [FeesStatusAdmin];
    - [RoadmapTopic.get_level], [RoadmapTopic.get_children],
      [RoadmapTopic.get_all_descendants] and the view helper
      [_build_topic_tree];
    - the role tests of the access mixins of the views, with the role
      helpers of [UserProfile].

    The relational database is modelled as explicit state: one finite map
    per table for the fee ledger (rows are looked up and written by primary
    key, aggregates do not depend on row order), and a list of rows in
    storage order for the topic table (the order in which a query without a
    deciding sort key yields rows matters there). *)

From Stdlib Require Import ZArith String List Permutation Sorting.Sorted.
From stdpp Require Import base option list gmap strings.

Open Scope Z_scope.

(** ** Exceptions and outcomes *)

(** The exceptions that the modelled code can meet. *)
Inductive Exception :=
| IntegrityError                (* a database constraint rejected a write *)
| DoesNotExist                  (* a row fetched by key is not there *)
| RelatedObjectDoesNotExist     (* [user.profile] on a user without profile *)
| DatabaseError                 (* an UPDATE of chosen fields hit no row *)
| InvalidOperation.             (* a stored decimal is longer than its column *)

(** A call either returns a value or raises. *)
Inductive outcome (A : Type) :=
| Return (a : A)
| Raise (e : Exception).
Arguments Return {A} a.
Arguments Raise {A} e.

Definition bind {A B} (m : outcome A) (k : A -> outcome B) : outcome B :=
  match m with
  | Return a => k a
  | Raise e => Raise e
  end.

Notation "x <- m ;; k" := (bind m (fun x => k))
  (at level 100, m at next level, right associativity, only parsing).

(** [o.get()]-style access: a missing row raises [e]. *)
Definition or_raise {A} (e : Exception) (o : option A) : outcome A :=
  match o with
  | Some a => Return a
  | None => Raise e
  end.

(** [try: body except Exception: pass] around a state update: when the body
    raises, the exception is dropped and the state is the one before the
    body.  (Both bodies below write to the database in their last statement
    only, so nothing is half-written when they raise.) *)
Definition try_except_pass {S} (body : S -> outcome S) (s : S) : S :=
  match body s with
  | Return s' => s'
  | Raise _ => s
  end.

(** ** Fee ledger: data model *)

Module Fees.

(** [FeesStatus.STATUS_CHOICES] *)
Inductive Status := unpaid | paid | overdue | waived.

#[global] Instance Status_eq_dec : EqDecision Status.
Proof. solve_decision. Defined.

(** Dates are day numbers; amounts are exact numbers of hundredths
    ([DecimalField(decimal_places=2)]), so sums are exact.  A sum of fees can
    be longer than the ten digits of a column ([max_digits=10]); what the
    code meets then is modelled where it loads the guardian's profile, see
    [read_profile] below. *)
Definition date := Z.
Definition money := Z.

(** A [FeesStatus] instance or row.  [student] is the foreign key
    [student_id]; the primary key is the key of the table. *)
Record FeesStatus := mkFee {
  student : nat;
  month : string;
  fees : money;
  status : Status;
  due_date : date;
  paid_date : option date;
  remarks : string
}.

(** The columns of [Student] and [UserProfile] that the cascade reads or
    writes.  [parent] is the nullable foreign key to the guardian's user. *)
Record Student := mkStudent {
  parent : option nat;
  is_active : bool
}.

Record UserProfile := mkProfile {
  pending_amount : money
}.

(** The database: fee rows and student rows by primary key, profile rows by
    the key of the user they belong to (one-to-one). *)
Record DB := mkDB {
  fee_rows : gmap nat FeesStatus;
  student_rows : gmap nat Student;
  profile_rows : gmap nat UserProfile
}.

Definition with_status (s : Status) (f : FeesStatus) : FeesStatus :=
  mkFee (student f) (month f) (fees f) s (due_date f) (paid_date f) (remarks f).

Definition with_paid_date (d : option date) (f : FeesStatus) : FeesStatus :=
  mkFee (student f) (month f) (fees f) (status f) (due_date f) d (remarks f).

Definition with_is_active (b : bool) (s : Student) : Student :=
  mkStudent (parent s) b.

Definition with_pending_amount (a : money) (p : UserProfile) : UserProfile :=
  mkProfile a.

(** ** Queries *)

(** [FeesStatus.objects.filter(student=s, status__in=sts)], as the list of
    matching rows. *)
Definition filter_fees (db : DB) (s : nat) (sts : list Status) : list FeesStatus :=
  filter (fun f => student f = s /\ status f ∈ sts)
         ((map_to_list (fee_rows db)).*2).

(** [.aggregate(total=Sum('fees'))['total'] or 0]: the sum, 0 on no rows. *)
Definition sum_fees (l : list FeesStatus) : money :=
  foldr (fun f acc => fees f + acc) 0 l.

(** [.count()] *)
Definition count_fees (l : list FeesStatus) : nat := length l.

(** ** FeesStatus.save *)

(** The two statements of [save] before [super().save()]:
    set [paid_date] when paid and unset, clear it when not paid. *)
Definition pre_save (today : date) (self : FeesStatus) : FeesStatus :=
  let self1 :=
    if decide (status self = paid) then
      match paid_date self with
      | None => with_paid_date (Some today) self
      | Some _ => self
      end
    else self in
  if decide (status self1 = paid) then self1
  else with_paid_date None self1.

(** The constraints of the table, checked by the database on a write of row
    [pk]: the student must exist (foreign key) and no other row may have the
    same student and month ([unique_together]). *)
Definition write_allowed (pk : nat) (self : FeesStatus) (db : DB) : bool :=
  bool_decide (is_Some (student_rows db !! student self)) &&
  forallb (fun kr : nat * FeesStatus =>
             bool_decide (kr.1 = pk) ||
             negb (bool_decide (student kr.2 = student self) &&
                   bool_decide (month kr.2 = month self)))
          (map_to_list (fee_rows db)).

(** [super().save()]: insert or update row [pk]. *)
Definition super_save (pk : nat) (self : FeesStatus) (db : DB) : outcome DB :=
  if write_allowed pk self db then
    Return (mkDB (<[pk := self]> (fee_rows db)) (student_rows db) (profile_rows db))
  else Raise IntegrityError.

(** [UserProfile.pending_amount] is a
    [DecimalField(max_digits=10, decimal_places=2)].  The configured
    database (SQLite) keeps whatever number is written to the column; when a
    row is loaded, the column's value is quantized to two places in a decimal
    context of ten digits, which raises [decimal.InvalidOperation] for a
    value of more than ten digits.  [fits_field a] says that the amount [a],
    in hundredths, has at most ten digits. *)
Definition max_digits : Z := 10.

Definition fits_field (a : money) : bool := Z.abs a <? 10 ^ max_digits.

(** [parent_user.profile]: the user's profile row is loaded.  A user without
    profile row raises; so does a row whose stored [pending_amount] does not
    fit the field. *)
Definition read_profile (db : DB) (u : nat) : outcome UserProfile :=
  profile <- or_raise RelatedObjectDoesNotExist (profile_rows db !! u) ;;
  if fits_field (pending_amount profile) then Return profile
  else Raise InvalidOperation.

(** The body of the [try] of [_update_parent_pending].  The total is the
    result of an aggregate, which is not cut to the digits of a column, and
    [profile.save(update_fields=['pending_amount'])] stores it as it is. *)
Definition update_parent_pending_body (self : FeesStatus) (db : DB) : outcome DB :=
  st <- or_raise DoesNotExist (student_rows db !! student self) ;;
  match parent st with
  | None => Return db
  | Some parent_user =>
      let total_pending := sum_fees (filter_fees db (student self) [unpaid; overdue]) in
      profile <- read_profile db parent_user ;;
      Return (mkDB (fee_rows db) (student_rows db)
                   (<[parent_user := with_pending_amount total_pending profile]>
                      (profile_rows db)))
  end.

Definition _update_parent_pending (self : FeesStatus) (db : DB) : DB :=
  try_except_pass (update_parent_pending_body self) db.

(** The body of the [try] of [_check_discontinuation]. *)
Definition check_discontinuation_body (self : FeesStatus) (db : DB) : outcome DB :=
  let overdue_count := count_fees (filter_fees db (student self) [overdue]) in
  st <- or_raise DoesNotExist (student_rows db !! student self) ;;
  let st' :=
    if bool_decide (2 <= overdue_count)%nat then with_is_active false st
    else with_is_active true st in
  Return (mkDB (fee_rows db) (<[student self := st']> (student_rows db))
               (profile_rows db)).

Definition _check_discontinuation (self : FeesStatus) (db : DB) : DB :=
  try_except_pass (check_discontinuation_body self) db.

(** [FeesStatus.save], for the instance [self] with primary key [pk]. *)
Definition save (today : date) (pk : nat) (self : FeesStatus) (db : DB) : outcome DB :=
  let self' := pre_save today self in
  db1 <- super_save pk self' db ;;
  let db2 := _update_parent_pending self' db1 in
  let db3 := _check_discontinuation self' db2 in
  Return db3.

(** [FeesStatus.is_overdue] *)
Definition is_overdue (today : date) (self : FeesStatus) : bool :=
  bool_decide (status self = unpaid) && bool_decide (due_date self < today).

(** ** FeesStatusAdmin: bulk actions *)

(** An evaluated queryset: the selected rows as instances with their primary
    keys, as fetched when the loop starts iterating. *)
Definition queryset := list (nat * FeesStatus).

(** The loop shared by the three actions,
    [for fee in queryset: fee.status = s; fee.save()].
    An exception of [save] leaves the loop; every earlier [save] has been
    committed on its own, so the result is the database reached and the
    exception that ended the loop, if any.  (The closing [message_user] call
    reports a count and does not touch the ledger.) *)
Fixpoint mark_selected (today : date) (s : Status) (qs : queryset) (db : DB)
    : DB * option Exception :=
  match qs with
  | [] => (db, None)
  | (pk, fee) :: rest =>
      match save today pk (with_status s fee) db with
      | Return db' => mark_selected today s rest db'
      | Raise e => (db, Some e)
      end
  end.

Definition mark_as_paid (today : date) (qs : queryset) (db : DB) :=
  mark_selected today paid qs db.

Definition mark_as_overdue (today : date) (qs : queryset) (db : DB) :=
  mark_selected today overdue qs db.

Definition mark_as_waived (today : date) (qs : queryset) (db : DB) :=
  mark_selected today waived qs db.

(** ** The operations and aggregates of the specification *)

(** [set_status(record, new_status)]: the record is fetched by key, given the
    new status and saved. *)
Definition set_status (today : date) (pk : nat) (s : Status) (db : DB) : outcome DB :=
  fee <- or_raise DoesNotExist (fee_rows db !! pk) ;;
  save today pk (with_status s fee) db.

(** [set_status] applied to each record of a list one at a time, in order. *)
Fixpoint set_status_each (today : date) (s : Status) (pks : list nat) (db : DB)
    : DB * option Exception :=
  match pks with
  | [] => (db, None)
  | pk :: rest =>
      match set_status today pk s db with
      | Return db' => set_status_each today s rest db'
      | Raise e => (db, Some e)
      end
  end.

(** Outstanding amount of one student: the fees of the student's records
    that are unpaid or overdue. *)
Definition student_outstanding (db : DB) (s : nat) : money :=
  sum_fees (filter_fees db s [unpaid; overdue]).

(** Number of overdue records of one student. *)
Definition overdue_count (db : DB) (s : nat) : nat :=
  count_fees (filter_fees db s [overdue]).

(** The guardian of a student, through the student row. *)
Definition guardian_of (db : DB) (s : nat) : option nat :=
  student_rows db !! s ≫= parent.

(** Outstanding amount of a guardian: the fees of the unpaid or overdue
    records of all the students whose parent the guardian is. *)
Definition guardian_outstanding (db : DB) (g : nat) : money :=
  sum_fees (filter (fun f => guardian_of db (student f) = Some g /\
                             status f ∈ [unpaid; overdue])
                   ((map_to_list (fee_rows db)).*2)).

(** A queryset is a snapshot of the database when each of its instances is
    the row stored under its key. *)
Definition snapshot_of (db : DB) (qs : queryset) : Prop :=
  Forall (fun kr : nat * FeesStatus => fee_rows db !! kr.1 = Some kr.2) qs.

(** ** Example ledgers *)

(** Amounts are in hundredths: 5000.00 is [500000]. *)
Definition fee_jan (s : Status) : FeesStatus :=
  mkFee 7 "01/2026" 500000 s 31 None EmptyString.

Definition fee_feb (s : Status) : FeesStatus :=
  mkFee 7 "02/2026" 500000 s 59 None EmptyString.

(** Student 7 with guardian 3, who has a profile; no fee record yet. *)
Definition ledger_empty : DB :=
  mkDB ∅ {[ 7%nat := mkStudent (Some 3%nat) true ]} {[ 3%nat := mkProfile 0 ]}.

Definition from_outcome (d : DB) (o : outcome DB) : DB :=
  match o with
  | Return db => db
  | Raise _ => d
  end.

(** Scenario A: both months of student 7 are recorded as overdue, on day 70. *)
Definition ledger_jan : DB :=
  Eval vm_compute in from_outcome ledger_empty (save 70 1 (fee_jan overdue) ledger_empty).

Definition ledger_A : DB :=
  Eval vm_compute in from_outcome ledger_empty (save 70 2 (fee_feb overdue) ledger_jan).

(** Scenario B: then January is marked as paid, on day 75. *)
Definition ledger_B : DB :=
  Eval vm_compute in from_outcome ledger_empty (set_status 75 1 paid ledger_A).

(** A guardian with two students: students 7 and 8 both have guardian 3;
    each has one unpaid record. *)
Definition fee_sibling : FeesStatus :=
  mkFee 8 "01/2026" 300000 unpaid 31 None EmptyString.

Definition ledger_siblings : DB :=
  mkDB {[ 1%nat := fee_jan unpaid; 2%nat := fee_sibling ]}
       {[ 7%nat := mkStudent (Some 3%nat) true; 8%nat := mkStudent (Some 3%nat) true ]}
       {[ 3%nat := mkProfile 0 ]}.

Definition ledger_siblings_saved : DB :=
  Eval vm_compute in from_outcome ledger_empty (save 70 1 (fee_jan unpaid) ledger_siblings).

(** A guardian whose user has no profile row. *)
Definition ledger_no_profile : DB :=
  mkDB ∅ {[ 7%nat := mkStudent (Some 3%nat) true ]} ∅.


Definition ledger_no_profile_saved : DB :=
  Eval vm_compute in from_outcome ledger_empty (save 70 1 (fee_jan unpaid) ledger_no_profile).

(** Two records of 99999999.99, the largest amount that fits the [fees]
    column, for student 7. *)
Definition fee_max_jan (s : Status) : FeesStatus :=
  mkFee 7 "01/2026" 9999999999 s 31 None EmptyString.

Definition fee_max_feb (s : Status) : FeesStatus :=
  mkFee 7 "02/2026" 9999999999 s 59 None EmptyString.

(** Both are recorded as unpaid, on day 70; then January is saved as paid,
    on day 75. *)
Definition ledger_max_jan : DB :=
  Eval vm_compute in from_outcome ledger_empty (save 70 1 (fee_max_jan unpaid) ledger_empty).

Definition ledger_max_both : DB :=
  Eval vm_compute in from_outcome ledger_empty (save 70 2 (fee_max_feb unpaid) ledger_max_jan).

Definition ledger_max_paid : DB :=
  Eval vm_compute in from_outcome ledger_empty (save 75 1 (fee_max_jan paid) ledger_max_both).



(** ** Further notions for the ledger *)

(** What one record adds to its student's outstanding amount, and to the
    student's number of overdue records. *)
Definition outstanding_part (f : FeesStatus) : money :=
  if bool_decide (status f ∈ [unpaid; overdue]) then fees f else 0.

Definition overdue_part (f : FeesStatus) : nat :=
  if bool_decide (status f ∈ [overdue]) then 1%nat else 0%nat.

(** A ledger on which every stored fee row satisfies the constraints of its
    table: its student exists and no other row has its student and month. *)
Definition ledger_ok (db : DB) : Prop :=
  forall pk r, fee_rows db !! pk = Some r -> write_allowed pk r db = true.

(** The discontinuation flag of student [s] agrees with the student's number
    of overdue records. *)
Definition flag_consistent (db : DB) (s : nat) : Prop :=
  exists st, student_rows db !! s = Some st /\
    is_active st = negb (bool_decide (2 <= overdue_count db s)%nat).

(** The instances of a queryset would each be written like the row stored
    under their key (a snapshot is, and stays so while the loop runs). *)
Definition saved_alike (today : date) (s : Status) (db : DB) (qs : queryset) : Prop :=
  Forall (fun kr : nat * FeesStatus =>
            exists r, fee_rows db !! kr.1 = Some r /\
              pre_save today (with_status s kr.2) = pre_save today (with_status s r)) qs.

(** [ledger_ok], as a check that runs. *)
Definition ledger_okb (db : DB) : bool :=
  forallb (fun kr : nat * FeesStatus => write_allowed kr.1 kr.2 db)
          (map_to_list (fee_rows db)).

(** Scenario A after the bulk action "paid" on both records, on day 75. *)
Definition ledger_all_paid : DB :=
  Eval vm_compute in
    (mark_as_paid 75 [(1%nat, fee_jan overdue); (2%nat, fee_feb overdue)] ledger_A).1.

End Fees.

(** ** Roadmap hierarchy: data model *)

Module Roadmap.

(** [RoadmapTopic.STATUS_CHOICES] *)
Inductive Status := not_started | in_progress | completed | upcoming.

(** A [RoadmapTopic] instance or row, with the columns that the hierarchy
    code reads.  [parent_topic_id] is the nullable self-reference. *)
Record RoadmapTopic := mkTopic {
  id : nat;
  title : string;
  description : string;
  parent_topic_id : option nat;
  order : Z;
  status : Status;
  test_scheduled : option Z;
  test_title : string
}.

(** The topic table: its rows in storage order, the order in which the
    database yields rows when the query's sort key does not decide. *)
Definition table := list RoadmapTopic.

(** Fetch a row by primary key. *)
Definition get (tbl : table) (pk : nat) : option RoadmapTopic :=
  List.find (fun r => bool_decide (id r = pk)) tbl.

(** The attribute [x.parent_topic]: [None] for a null key, else the row the
    key refers to, fetched on access. *)
Definition parent_topic (tbl : table) (x : RoadmapTopic) : outcome (option RoadmapTopic) :=
  match parent_topic_id x with
  | None => Return None
  | Some pk => p <- or_raise DoesNotExist (get tbl pk) ;; Return (Some p)
  end.

(** ** RoadmapTopic.get_level *)

(** The [while parent:] loop.  Each iteration costs one unit of fuel; [None]
    means that the loop was still running when the fuel ran out. *)
Fixpoint get_level_loop (fuel : nat) (tbl : table) (level : nat)
    (parent : option RoadmapTopic) : option (outcome nat) :=
  match parent with
  | None => Some (Return level)
  | Some p =>
      match fuel with
      | O => None
      | S fuel' =>
          match parent_topic tbl p with
          | Return parent' => get_level_loop fuel' tbl (S level) parent'
          | Raise e => Some (Raise e)
          end
      end
  end.

Definition get_level (fuel : nat) (tbl : table) (self : RoadmapTopic) : option (outcome nat) :=
  match parent_topic tbl self with
  | Return parent => get_level_loop fuel tbl 0 parent
  | Raise e => Some (Raise e)
  end.

(** The depth of the specification: 0 without parent, one more than the
    parent's otherwise.  It is defined exactly for the topics whose ancestor
    chain ends. *)
Inductive has_depth (tbl : table) : RoadmapTopic -> nat -> Prop :=
| depth_root x :
    parent_topic_id x = None -> has_depth tbl x 0
| depth_child x pk p d :
    parent_topic_id x = Some pk -> get tbl pk = Some p ->
    has_depth tbl p d -> has_depth tbl x (S d).

(** ** RoadmapTopic.get_children *)

(** [ORDER BY "order" ASC]: rows come out by ascending [order]; rows with the
    same [order] keep the order in which the storage yields them. *)
Fixpoint insert_by_order (x : RoadmapTopic) (l : list RoadmapTopic) : list RoadmapTopic :=
  match l with
  | [] => [x]
  | y :: l' =>
      if bool_decide (order x <= order y) then x :: y :: l'
      else y :: insert_by_order x l'
  end.

Definition order_by_order (l : list RoadmapTopic) : list RoadmapTopic :=
  foldr insert_by_order [] l.

(** The reverse relation [self.subtopics.all()], as rows. *)
Definition subtopics (tbl : table) (self : RoadmapTopic) : list RoadmapTopic :=
  filter (fun r => parent_topic_id r = Some (id self)) tbl.

Definition get_children (tbl : table) (self : RoadmapTopic) : list RoadmapTopic :=
  order_by_order (subtopics tbl self).

(** The order of [order_by('order')] between two rows. *)
Definition order_le (x y : RoadmapTopic) : Prop := order x <= order y.

(** The order of [Meta.ordering = ['order', 'title']] between two rows:
    by [order], then by [title]. *)
Definition meta_le (x y : RoadmapTopic) : Prop :=
  order x < order y \/ (order x = order y /\ String.leb (title x) (title y) = true).

(** ** _build_topic_tree *)

(** [RoadmapTopic.get_badge_class] *)
Definition get_badge_class (self : RoadmapTopic) : string :=
  match status self with
  | completed => "bg-success"
  | in_progress => "bg-warning text-dark"
  | upcoming => "bg-info"
  | not_started => "bg-secondary"
  end.

(** [RoadmapTopic.has_upcoming_test] *)
Definition has_upcoming_test (today : Z) (self : RoadmapTopic) : bool :=
  match test_scheduled self with
  | Some d => bool_decide (today <= d)
  | None => false
  end.

(** The three entries added under [include_tests]. *)
Record test_info := mkTestInfo {
  n_test_scheduled : option Z;
  n_test_title : string;
  n_has_upcoming_test : bool
}.

(** A node dictionary.  Nodes are shared mutable objects: the same node
    object is held by [topic_dict] and by its parent's ['children'] list (or
    by [tree]), and is still appended to after it has been linked.  A
    reference to a node is the key under which [topic_dict] holds it, so
    ['children'] is a list of such keys and the node objects live in one
    heap. *)
Record node := mkNode {
  n_id : nat;
  n_name : string;
  n_status : Status;
  n_badge_class : string;
  n_description : string;
  n_children : list nat;
  n_tests : option test_info
}.

Definition make_node (today : Z) (include_tests : bool) (topic : RoadmapTopic) : node :=
  mkNode (id topic) (title topic) (status topic) (get_badge_class topic)
         (description topic) []
         (if include_tests then
            Some (mkTestInfo (test_scheduled topic) (test_title topic)
                             (has_upcoming_test today topic))
          else None).

(** [node['children'].append(ref)] *)
Definition append_child (ref : nat) (n : node) : node :=
  mkNode (n_id n) (n_name n) (n_status n) (n_badge_class n) (n_description n)
         (n_children n ++ [ref]) (n_tests n).

(** First loop: one fresh node per topic, stored under the topic's id. *)
Definition build_nodes (today : Z) (include_tests : bool) (topics : list RoadmapTopic)
    : gmap nat node :=
  foldl (fun topic_dict topic => <[id topic := make_node today include_tests topic]> topic_dict)
        ∅ topics.

(** Python truth value of an integer key. *)
Definition truthy (n : nat) : bool := negb (n =? 0)%nat.

(** One iteration of the second loop, on the pair of [topic_dict] and
    [tree]. *)
Definition link_topic (st : gmap nat node * list nat) (topic : RoadmapTopic)
    : gmap nat node * list nat :=
  let '(topic_dict, tree) := st in
  match parent_topic_id topic with
  | Some p =>
      if truthy p && bool_decide (is_Some (topic_dict !! p)) then
        (alter (append_child (id topic)) p topic_dict, tree)
      else (topic_dict, tree ++ [id topic])
  | None => (topic_dict, tree ++ [id topic])
  end.

(** [_build_topic_tree]: the heap of node objects and the returned list
    [tree] of references to the root nodes. *)
Definition _build_topic_tree (today : Z) (topics : list RoadmapTopic) (include_tests : bool)
    : gmap nat node * list nat :=
  foldl link_topic (build_nodes today include_tests topics, []) topics.

(** Flattening, the second half of the round trip of the specification (the
    source has no such function; its callers serialize the forest): a
    pre-order walk from the roots through the ['children'] lists, listing
    every node met with the node it hangs under ([None] for a root).  One unit
    of fuel per level. *)
Fixpoint flatten_node (fuel : nat) (heap : gmap nat node) (above : option nat) (ref : nat)
    : list (nat * option nat) :=
  match fuel with
  | O => []
  | S fuel' =>
      match heap !! ref with
      | None => []
      | Some n =>
          (n_id n, above) :: (n_children n ≫= flatten_node fuel' heap (Some (n_id n)))
      end
  end.

Definition flatten (fuel : nat) (built : gmap nat node * list nat) : list (nat * option nat) :=
  built.2 ≫= flatten_node fuel built.1 None.

(** The parent of a topic within a given collection: its parent key when
    that key is the id of a topic of the collection. *)
Definition ids (topics : list RoadmapTopic) : list nat := id <$> topics.

Definition parent_within (topics : list RoadmapTopic) (x : RoadmapTopic) : option nat :=
  match parent_topic_id x with
  | Some p => if bool_decide (p ∈ ids topics) then Some p else None
  | None => None
  end.

(** The edges of a collection: every topic with its parent within it. *)
Definition edges (topics : list RoadmapTopic) : list (nat * option nat) :=
  (fun x => (id x, parent_within topics x)) <$> topics.

(** [chain_ends topics i d]: the topic with id [i] reaches, in [d] steps along
    the parent links within the collection, a topic without parent within
    it.  A collection is acyclic when every ancestor chain ends. *)
Inductive chain_ends (topics : list RoadmapTopic) : nat -> nat -> Prop :=
| chain_root x :
    x ∈ topics -> parent_within topics x = None -> chain_ends topics (id x) 0
| chain_step x p d :
    x ∈ topics -> parent_within topics x = Some p ->
    chain_ends topics p d -> chain_ends topics (id x) (S d).

Definition acyclic (topics : list RoadmapTopic) : Prop :=
  forall x, x ∈ topics -> exists d, chain_ends topics (id x) d.

(** ** Notions used to describe the built forest *)

(** A node with further references appended to its ['children']. *)
Definition add_children (refs : list nat) (n : node) : node :=
  mkNode (n_id n) (n_name n) (n_status n) (n_badge_class n) (n_description n)
         (n_children n ++ refs) (n_tests n).

(** The parent that the second loop sees for [topic], given the dictionary
    built by the first loop. *)
Definition linked_parent (topic_dict : gmap nat node) (topic : RoadmapTopic) : option nat :=
  match parent_topic_id topic with
  | Some p => if truthy p && bool_decide (is_Some (topic_dict !! p)) then Some p else None
  | None => None
  end.

(** The ids of the topics of the collection whose parent within it is [i],
    in the order of the collection. *)
Definition kids (topics : list RoadmapTopic) (i : nat) : list nat :=
  id <$> filter (fun y => parent_within topics y = Some i) topics.

(** The ids of the topics without parent within the collection. *)
Definition orphans (topics : list RoadmapTopic) : list nat :=
  id <$> filter (fun y => parent_within topics y = None) topics.

(** One step up, and [k] steps up, from the topic with id [i]. *)
Definition up (topics : list RoadmapTopic) (i : nat) : option nat :=
  get topics i ≫= parent_within topics.

Fixpoint anc (topics : list RoadmapTopic) (k : nat) (i : nat) : option nat :=
  match k with
  | O => Some i
  | S k' => up topics i ≫= anc topics k'
  end.

(** The ids met on the way up, over at most [d] steps. *)
Fixpoint path (topics : list RoadmapTopic) (d : nat) (i : nat) : list nat :=
  match d with
  | O => [i]
  | S d' =>
      i :: match up topics i with
           | Some p => path topics d' p
           | None => []
           end
  end.

(** ** RoadmapTopic.get_all_descendants *)

(** [Meta.ordering = ['order', 'title']] as a test: by [order], then by
    [title], compared byte by byte. *)
Definition meta_leb (x y : RoadmapTopic) : bool :=
  (order x <? order y) || ((order x =? order y) && String.leb (title x) (title y)).

(** The default ordering of a query: rows come out by [Meta.ordering]; rows
    equal in both keys keep the order in which the storage yields them. *)
Fixpoint insert_by_meta (x : RoadmapTopic) (l : list RoadmapTopic) : list RoadmapTopic :=
  match l with
  | [] => [x]
  | y :: l' =>
      if meta_leb x y then x :: y :: l'
      else y :: insert_by_meta x l'
  end.

Definition order_by_meta (l : list RoadmapTopic) : list RoadmapTopic :=
  foldr insert_by_meta [] l.

(** [self.subtopics.all()], evaluated: the children in the default
    ordering. *)
Definition subtopics_all (tbl : table) (self : RoadmapTopic) : list RoadmapTopic :=
  order_by_meta (subtopics tbl self).

(** The loop [for child in ...: descendants.append(child);
    descendants.extend(child.get_all_descendants())], with the recursive call
    as [rec]; [None] when a recursive call did not return. *)
Fixpoint extend_with_children (rec : RoadmapTopic -> option (list RoadmapTopic))
    (children descendants : list RoadmapTopic) : option (list RoadmapTopic) :=
  match children with
  | [] => Some descendants
  | child :: rest =>
      match rec child with
      | Some below => extend_with_children rec rest (descendants ++ [child] ++ below)
      | None => None
      end
  end.

(** [get_all_descendants], with [depth] the number of nested calls that the
    interpreter still allows; [None] means that this bound was hit (a
    [RecursionError]). *)
Fixpoint get_all_descendants (depth : nat) (tbl : table) (self : RoadmapTopic)
    : option (list RoadmapTopic) :=
  match depth with
  | O => None
  | S depth' =>
      extend_with_children (get_all_descendants depth' tbl) (subtopics_all tbl self) []
  end.

(** The topic with id [i] lies below the topic with id [j]: [j] is reached
    from [i] in one or more steps up. *)
Definition below (topics : list RoadmapTopic) (i j : nat) : Prop :=
  exists k, anc topics (S k) i = Some j.

(** ** Example topics *)

Definition topic (i : nat) (t : string) (p : option nat) (o : Z) : RoadmapTopic :=
  mkTopic i t EmptyString p o upcoming None EmptyString.

(** Scenario C: a root, its child and its grandchild. *)
Definition root_topic : RoadmapTopic := topic 1 "Root" None 0.
Definition child_topic : RoadmapTopic := topic 2 "Child" (Some 1%nat) 0.
Definition grandchild_topic : RoadmapTopic := topic 3 "Grandchild" (Some 2%nat) 0.
Definition chain_table : table := [root_topic; child_topic; grandchild_topic].

(** A topic that is its own parent. *)
Definition looping_topic : RoadmapTopic := topic 1 "Loop" (Some 1%nat) 0.
Definition looping_table : table := [looping_topic].

(** A unit with two subtopics that were both left at the default [order] 0,
    stored in the order in which they were created. *)
Definition unit_topic : RoadmapTopic := topic 1 "Unit" None 0.
Definition zebra_topic : RoadmapTopic := topic 2 "Zebra" (Some 1%nat) 0.
Definition apple_topic : RoadmapTopic := topic 3 "Apple" (Some 1%nat) 0.
Definition unit_table : table := [unit_topic; zebra_topic; apple_topic].

(** A collection whose first topic has its parent outside it. *)
Definition orphan_table : table :=
  [topic 5 "A" (Some 9%nat) 0; topic 6 "B" (Some 5%nat) 0].

(** Two topics that are each other's parent, and a root. *)
Definition cyclic_table : table :=
  [topic 1 "A" (Some 2%nat) 0; topic 2 "B" (Some 1%nat) 0; topic 3 "C" None 0].

(** A topic stored under key 0 and a topic that names it as parent. *)
Definition zero_key_table : table :=
  [topic 0 "A" None 0; topic 6 "B" (Some 0%nat) 0].

(** The first topic of [cyclic_table]. *)
Definition cycle_topic : RoadmapTopic := topic 1 "A" (Some 2%nat) 0.

End Roadmap.

(** ** Role-based access: data model *)

Module Access.

(** The part of a [UserProfile] that the access tests read. *)
Record UserProfile := mkProfile {
  role : string
}.

(** A request's user: the superuser flag, and the profile when the user has
    one ([hasattr(user, 'profile')]). *)
Record User := mkUser {
  is_superuser : bool;
  profile : option UserProfile
}.

(** [UserProfile.is_teacher], [is_student], [is_parent] *)
Definition is_teacher (self : UserProfile) : bool := String.eqb (role self) "teacher".
Definition is_student (self : UserProfile) : bool := String.eqb (role self) "student".
Definition is_parent (self : UserProfile) : bool := String.eqb (role self) "parent".



(** [TeacherOrAdminMixin.test_func] *)
Definition teacher_or_admin (user : User) : bool :=
  match profile user with
  | None => false
  | Some p =>
      (String.eqb (role p) "teacher" || String.eqb (role p) "admin") || is_superuser user
  end.

(** [TeacherRequiredMixin.test_func], [StudentRequiredMixin.test_func],
    [ParentRequiredMixin.test_func] *)
Definition teacher_required (user : User) : bool :=
  match profile user with
  | Some p => is_teacher p
  | None => false
  end.

Definition student_required (user : User) : bool :=
  match profile user with
  | Some p => is_student p
  | None => false
  end.

Definition parent_required (user : User) : bool :=
  match profile user with
  | Some p => is_parent p
  | None => false
  end.

End Access.

(** * Properties of the fee ledger *)

Module FeesFacts.
Import Fees.

(** ** The paid date *)

Lemma status_pre_save today self : status (pre_save today self) = status self.
Proof.
  unfold pre_save. destruct self as [st mo fe [] du [d|] re]; reflexivity.
Qed.

Lemma paid_date_pre_save today self :
  paid_date (pre_save today self) =
  match status self with
  | paid => match paid_date self with
            | None => Some today
            | Some d => Some d
            end
  | _ => None
  end.
Proof.
  unfold pre_save. destruct self as [st mo fe [] du [d|] re]; reflexivity.
Qed.

(** Only [status] and [paid_date] are touched. *)
Lemma pre_save_other_fields today self :
  student (pre_save today self) = student self /\
  month (pre_save today self) = month self /\
  fees (pre_save today self) = fees self /\
  due_date (pre_save today self) = due_date self /\
  remarks (pre_save today self) = remarks self.
Proof.
  unfold pre_save. destruct self as [st mo fe [] du [d|] re]; cbn; auto.
Qed.

(** A second pass changes nothing, whatever the day. *)
Lemma pre_save_idem today today' self :
  pre_save today' (pre_save today self) = pre_save today self.
Proof.
  unfold pre_save. destruct self as [st mo fe [] du [d|] re]; reflexivity.
Qed.

Lemma with_status_same s self : status self = s -> with_status s self = self.
Proof. intros <-. destruct self; reflexivity. Qed.

(** ** What [save] does to each table *)

Lemma fee_rows_update_parent_pending self db :
  fee_rows (_update_parent_pending self db) = fee_rows db.
Proof.
  unfold _update_parent_pending, try_except_pass, update_parent_pending_body.
  destruct (student_rows db !! student self) as [st|]; cbn; [|done].
  destruct (parent st) as [g|]; cbn; [|done].
  unfold read_profile.
  destruct (profile_rows db !! g) as [p|]; cbn; [|done].
  destruct (fits_field (pending_amount p)); cbn; done.
Qed.

Lemma student_rows_update_parent_pending self db :
  student_rows (_update_parent_pending self db) = student_rows db.
Proof.
  unfold _update_parent_pending, try_except_pass, update_parent_pending_body.
  destruct (student_rows db !! student self) as [st|]; cbn; [|done].
  destruct (parent st) as [g|]; cbn; [|done].
  unfold read_profile.
  destruct (profile_rows db !! g) as [p|]; cbn; [|done].
  destruct (fits_field (pending_amount p)); cbn; done.
Qed.

Lemma fee_rows_check_discontinuation self db :
  fee_rows (_check_discontinuation self db) = fee_rows db.
Proof.
  unfold _check_discontinuation, try_except_pass, check_discontinuation_body.
  destruct (student_rows db !! student self); cbn; done.
Qed.

Lemma profile_rows_check_discontinuation self db :
  profile_rows (_check_discontinuation self db) = profile_rows db.
Proof.
  unfold _check_discontinuation, try_except_pass, check_discontinuation_body.
  destruct (student_rows db !! student self); cbn; done.
Qed.

(** Queries on the fee table see the fee rows only. *)
Lemma filter_fees_ext db db' s sts :
  fee_rows db = fee_rows db' -> filter_fees db s sts = filter_fees db' s sts.
Proof. unfold filter_fees. intros ->. reflexivity. Qed.

(** A completed [save] is a row write that the constraints allowed, followed
    by the two recompute steps. *)
Lemma save_Return today pk self db db' :
  save today pk self db = Return db' ->
  let self' := pre_save today self in
  let db1 := mkDB (<[pk := self']> (fee_rows db)) (student_rows db) (profile_rows db) in
  write_allowed pk self' db = true /\
  db' = _check_discontinuation self' (_update_parent_pending self' db1).
Proof.
  unfold save, super_save. cbn.
  destruct (write_allowed pk (pre_save today self) db); cbn; [|discriminate].
  intros [= <-]. done.
Qed.

Lemma save_completes today pk self db :
  write_allowed pk (pre_save today self) db = true ->
  exists db', save today pk self db = Return db'.
Proof.
  intros Hw. unfold save, super_save. rewrite Hw. cbn. eauto.
Qed.

Lemma save_Raise today pk self db e :
  save today pk self db = Raise e ->
  e = IntegrityError /\ write_allowed pk (pre_save today self) db = false.
Proof.
  unfold save, super_save.
  destruct (write_allowed pk (pre_save today self) db); cbn; [discriminate|].
  intros [= <-]. done.
Qed.

Lemma write_allowed_student pk self db :
  write_allowed pk self db = true -> is_Some (student_rows db !! student self).
Proof.
  unfold write_allowed. intros [H _]%andb_prop. by apply bool_decide_eq_true in H.
Qed.

Lemma save_fee_rows today pk self db db' :
  save today pk self db = Return db' ->
  fee_rows db' = <[pk := pre_save today self]> (fee_rows db).
Proof.
  intros [_ ->]%save_Return.
  by rewrite fee_rows_check_discontinuation, fee_rows_update_parent_pending.
Qed.

(** [save] reads its instance through [pre_save] only. *)
Lemma save_ext today pk a b db :
  pre_save today a = pre_save today b -> save today pk a db = save today pk b db.
Proof. unfold save. intros ->. reflexivity. Qed.

(** ** Discontinuation flag *)

(** The flag written by a completed [save], as an equation. *)
Lemma save_recomputes_is_active today pk self db db' :
  save today pk self db = Return db' ->
  exists st, student_rows db' !! student self = Some st /\
    is_active st = negb (bool_decide (2 <= overdue_count db' (student self))%nat).
Proof.
  intros Hs. apply save_Return in Hs as [Hw ->].
  set (self' := pre_save today self).
  set (db1 := mkDB _ _ _).
  assert (Hst : student self' = student self) by apply pre_save_other_fields.
  apply write_allowed_student in Hw as [st0 Hst0]. fold self' in Hst0.
  rewrite Hst in Hst0.
  set (db2 := _update_parent_pending self' db1).
  assert (Hst2 : student_rows db2 !! student self = Some st0).
  { unfold db2. rewrite student_rows_update_parent_pending. exact Hst0. }
  assert (Hcount : overdue_count (_check_discontinuation self' db2) (student self)
                   = count_fees (filter_fees db2 (student self) [overdue])).
  { unfold overdue_count. f_equal. apply filter_fees_ext.
    apply fee_rows_check_discontinuation. }
  rewrite Hcount.
  unfold _check_discontinuation, try_except_pass, check_discontinuation_body.
  rewrite Hst, Hst2. cbn.
  rewrite lookup_insert_eq.
  eexists; split; [reflexivity|].
  case_bool_decide; reflexivity.
Qed.

(** C2. After a completed [save] of a fee record of student S, the row of S
    exists and its [is_active] is false exactly when S has two or more
    overdue records in the resulting ledger, and true exactly when S has
    fewer than two.  The flag before the call plays no part: it is recomputed
    from the current count, so a student whose count dropped below two is
    active again. *)
Theorem is_active_after_save today pk self db db' :
  save today pk self db = Return db' ->
  exists st, student_rows db' !! student self = Some st /\
    (is_active st = false <-> (2 <= overdue_count db' (student self))%nat) /\
    (is_active st = true <-> (overdue_count db' (student self) < 2)%nat).
Proof.
  intros (st & Hst & Hact)%save_recomputes_is_active.
  exists st. split; [exact Hst|]. rewrite Hact.
  case_bool_decide; cbn; split; split; intros; try done; lia.
Qed.

Lemma is_active_after_save_witness :
  save 75 1 (fee_jan paid) ledger_A = Return ledger_B /\
  exists st, student_rows ledger_B !! 7%nat = Some st /\
    (is_active st = false <-> (2 <= overdue_count ledger_B 7)%nat) /\
    (is_active st = true <-> (overdue_count ledger_B 7 < 2)%nat).
Proof.
  split; [vm_compute; reflexivity|].
  apply (is_active_after_save 75 1 (fee_jan paid) ledger_A ledger_B).
  vm_compute; reflexivity.
Defined.

(** The same for [set_status] on a stored record. *)
Lemma is_active_after_set_status today pk s db db' r :
  fee_rows db !! pk = Some r ->
  set_status today pk s db = Return db' ->
  exists st, student_rows db' !! student r = Some st /\
    is_active st = negb (bool_decide (2 <= overdue_count db' (student r))%nat).
Proof.
  intros Hr. unfold set_status. rewrite Hr. cbn. intros Hs.
  apply save_recomputes_is_active in Hs. exact Hs.
Qed.

(** ** Guardian pending amount *)


(** Two records of 99999999.99 are saved as unpaid, and their total,
    199999999.98, is stored as the guardian's pending amount.  When one of
    them is then saved as paid, the profile row no longer loads: the
    recompute raises, the error is dropped, and the stored amount stays. *)
Example scenario_max :
  save 70 1 (fee_max_jan unpaid) ledger_empty = Return ledger_max_jan /\
  save 70 2 (fee_max_feb unpaid) ledger_max_jan = Return ledger_max_both /\
  pending_amount <$> profile_rows ledger_max_both !! 3%nat = Some 19999999998 /\
  update_parent_pending_body (pre_save 75 (fee_max_jan paid))
    (from_outcome ledger_empty
       (super_save 1 (pre_save 75 (fee_max_jan paid)) ledger_max_both))
  = Raise InvalidOperation /\
  save 75 1 (fee_max_jan paid) ledger_max_both = Return ledger_max_paid /\
  pending_amount <$> profile_rows ledger_max_paid !! 3%nat = Some 19999999998 /\
  student_outstanding ledger_max_paid 7 = 9999999999.
Proof. vm_compute. done. Qed.




(** Scenario A: two overdue records of 5000.00 give 10000.00 pending and an
    inactive student. *)
Example scenario_A :
  save 70 2 (fee_feb overdue) ledger_jan = Return ledger_A /\
  pending_amount <$> profile_rows ledger_A !! 3%nat = Some 1000000 /\
  is_active <$> student_rows ledger_A !! 7%nat = Some false.
Proof. vm_compute. done. Qed.

(** Scenario B: paying one of them leaves 5000.00 pending, reactivates the
    student and dates the payment with the day of the operation. *)
Example scenario_B :
  set_status 75 1 paid ledger_A = Return ledger_B /\
  pending_amount <$> profile_rows ledger_B !! 3%nat = Some 500000 /\
  is_active <$> student_rows ledger_B !! 7%nat = Some true /\
  paid_date <$> fee_rows ledger_B !! 1%nat = Some (Some 75).
Proof. vm_compute. done. Qed.

(** C1, evaluated on a guardian with two students.  Students 7 and 8 have
    guardian 3 and one unpaid record each (5000.00 and 3000.00).  After a
    completed [save] of the record of student 7 the guardian's
    [pending_amount] is 5000.00, the outstanding amount of student 7 alone,
    while the unpaid and overdue records of the guardian's students add up
    to 8000.00. *)
Theorem pending_amount_two_students :
  save 70 1 (fee_jan unpaid) ledger_siblings = Return ledger_siblings_saved /\
  guardian_of ledger_siblings_saved 7 = Some 3%nat /\
  guardian_of ledger_siblings_saved 8 = Some 3%nat /\
  pending_amount <$> profile_rows ledger_siblings_saved !! 3%nat = Some 500000 /\
  student_outstanding ledger_siblings_saved 7 = 500000 /\
  guardian_outstanding ledger_siblings_saved 3 = 800000.
Proof. vm_compute. done. Qed.


(** ** The paid date after [set_status] *)

(** C4. After a completed [set_status] with status [s] on a stored record,
    the stored record has status [s] and its [paid_date] is: the day of the
    call when [s] is paid and no date was set; the date it had when [s] is
    paid and a date was set; unset when [s] is not paid, whatever it was.
    After a paid call, any further paid call, on whatever day, leaves the
    same [paid_date]. *)
Theorem paid_date_after_set_status today pk s db db' r :
  fee_rows db !! pk = Some r ->
  set_status today pk s db = Return db' ->
  exists r', fee_rows db' !! pk = Some r' /\
    status r' = s /\
    paid_date r' =
      match s with
      | paid => match paid_date r with
                | None => Some today
                | Some d => Some d
                end
      | _ => None
      end /\
    (s = paid ->
     forall later db'', set_status later pk paid db' = Return db'' ->
       exists r'', fee_rows db'' !! pk = Some r'' /\ paid_date r'' = paid_date r').
Proof.
  intros Hr. unfold set_status at 1. rewrite Hr. cbn. intros Hs.
  apply save_fee_rows in Hs as Hrows.
  exists (pre_save today (with_status s r)).
  split; [by rewrite Hrows, lookup_insert_eq|].
  split; [by rewrite status_pre_save|].
  split; [by rewrite paid_date_pre_save|].
  intros -> later db'' Hs2. unfold set_status in Hs2.
  rewrite Hrows, lookup_insert_eq in Hs2. cbn in Hs2.
  apply save_fee_rows in Hs2 as Hrows2.
  eexists. split; [by rewrite Hrows2, lookup_insert_eq|].
  rewrite with_status_same by (by rewrite status_pre_save).
  by rewrite pre_save_idem.
Qed.

Lemma paid_date_after_set_status_witness :
  (fee_rows ledger_A !! 1%nat = Some (fee_jan overdue) /\
   set_status 75 1 paid ledger_A = Return ledger_B) /\
  exists r', fee_rows ledger_B !! 1%nat = Some r' /\
    status r' = paid /\
    paid_date r' = Some 75 /\
    (paid = paid ->
     forall later db'', set_status later 1 paid ledger_B = Return db'' ->
       exists r'', fee_rows db'' !! 1%nat = Some r'' /\ paid_date r'' = paid_date r').
Proof.
  split; [split; vm_compute; reflexivity|].
  apply (paid_date_after_set_status 75 1 paid ledger_A ledger_B (fee_jan overdue));
    vm_compute; reflexivity.
Defined.

(** Paid, then unpaid: the date is cleared. *)
Example paid_then_unpaid_clears :
  paid_date <$> fee_rows (from_outcome ledger_empty (set_status 80 1 unpaid ledger_B)) !! 1%nat
  = Some None.
Proof. vm_compute. reflexivity. Qed.

(** ** The helper [is_overdue] *)

(** C10. [is_overdue] is true exactly for an unpaid record whose due date is
    before today; a record that is overdue, paid or waived gives false
    whatever its due date. *)
Theorem is_overdue_iff today self :
  (is_overdue today self = true <-> status self = unpaid /\ due_date self < today) /\
  (status self <> unpaid -> is_overdue today self = false).
Proof.
  unfold is_overdue. split.
  - rewrite andb_true_iff, !bool_decide_eq_true. reflexivity.
  - intros Hne. rewrite bool_decide_eq_false_2 by done. reflexivity.
Qed.

Lemma is_overdue_iff_witness :
  overdue <> unpaid /\
  (is_overdue 100 (fee_jan overdue) = true <->
     status (fee_jan overdue) = unpaid /\ due_date (fee_jan overdue) < 100) /\
  is_overdue 100 (fee_jan overdue) = false.
Proof.
  split; [discriminate|].
  destruct (is_overdue_iff 100 (fee_jan overdue)) as [H1 H2].
  split; [exact H1 | apply H2; discriminate].
Defined.

(** ** Errors of the recompute steps *)




(** ** Bulk actions *)

(** The loop of a bulk action agrees with record-by-record [set_status] as
    long as every instance of the queryset would be written like the row
    stored under its key. *)
Lemma mark_selected_agree today s qs : forall db,
  Forall (fun kr : nat * FeesStatus =>
            exists r, fee_rows db !! kr.1 = Some r /\
              pre_save today (with_status s kr.2) = pre_save today (with_status s r)) qs ->
  mark_selected today s qs db = set_status_each today s (qs.*1) db.
Proof.
  induction qs as [|[pk fee] rest IH]; intros db Hall; [reflexivity|].
  apply Forall_cons in Hall as [(r & Hr & Heq) Hrest]. cbn in Hr, Heq.
  cbn. unfold set_status at 1. rewrite Hr. cbn.
  rewrite <- (save_ext today pk _ _ db Heq).
  destruct (save today pk (with_status s fee) db) as [db'|e] eqn:Hs; [|reflexivity].
  apply IH. apply save_fee_rows in Hs as Hrows.
  eapply Forall_impl; [exact Hrest|].
  intros [k f] (r0 & Hr0 & Heq0). cbn in *.
  rewrite Hrows. destruct (decide (pk = k)) as [->|Hne].
  - rewrite lookup_insert_eq. eexists; split; [reflexivity|].
    rewrite Hr in Hr0. injection Hr0 as <-.
    rewrite Heq0, <- Heq.
    rewrite (with_status_same s (pre_save today (with_status s fee)))
      by (rewrite status_pre_save; by destruct fee).
    by rewrite pre_save_idem.
  - rewrite lookup_insert_ne by done. eauto.
Qed.

(** C8. On a queryset that is a snapshot of the ledger, the loop of a bulk
    action with status [s] ends in the same ledger (every fee row with its
    [paid_date], every [pending_amount], every [is_active]) and with the same
    exception, if any, as [set_status] applied to the records one at a time
    in the same order. *)
Theorem mark_selected_is_set_status_each today s qs db :
  snapshot_of db qs ->
  mark_selected today s qs db = set_status_each today s (qs.*1) db.
Proof.
  intros Hsnap. apply mark_selected_agree.
  eapply Forall_impl; [exact Hsnap|].
  intros [k f] Hk. cbn in *. eauto.
Qed.

Lemma mark_selected_is_set_status_each_witness :
  snapshot_of ledger_A [(1%nat, fee_jan overdue); (2%nat, fee_feb overdue)] /\
  mark_as_paid 75 [(1%nat, fee_jan overdue); (2%nat, fee_feb overdue)] ledger_A
  = set_status_each 75 paid [1%nat; 2%nat] ledger_A.
Proof.
  assert (Hsnap : snapshot_of ledger_A [(1%nat, fee_jan overdue); (2%nat, fee_feb overdue)]).
  { repeat constructor. }
  split; [exact Hsnap|].
  exact (mark_selected_is_set_status_each 75 paid _ ledger_A Hsnap).
Defined.

(** The bulk action on scenario A: both records paid on day 75, nothing
    pending, student active. *)
Example mark_as_paid_scenario :
  let '(db, e) := mark_as_paid 75 [(1%nat, fee_jan overdue); (2%nat, fee_feb overdue)] ledger_A in
  e = None /\
  paid_date <$> fee_rows db !! 1%nat = Some (Some 75) /\
  paid_date <$> fee_rows db !! 2%nat = Some (Some 75) /\
  pending_amount <$> profile_rows db !! 3%nat = Some 0 /\
  is_active <$> student_rows db !! 7%nat = Some true.
Proof. vm_compute. done. Qed.

End FeesFacts.

(** * Properties of the roadmap hierarchy *)

Module RoadmapFacts.
Import Roadmap.

(** ** Depth *)

Lemma get_level_loop_None fuel tbl level :
  get_level_loop fuel tbl level None = Some (Return level).
Proof. destruct fuel; reflexivity. Qed.

(** From a parent of depth [d] the loop runs [d + 1] more times. *)
Lemma get_level_loop_depth tbl p d :
  has_depth tbl p d ->
  forall level k,
    get_level_loop (S d + k) tbl level (Some p) = Some (Return (level + S d)%nat).
Proof.
  induction 1 as [x Hx | x pk q d Hx Hq Hd IH]; intros level k.
  - cbn. unfold parent_topic. rewrite Hx.
    rewrite get_level_loop_None. do 2 f_equal. lia.
  - change (S (S d) + k)%nat with (S (S d + k)).
    cbn [get_level_loop]. unfold parent_topic. rewrite Hx, Hq. cbn [bind or_raise].
    rewrite (IH (S level) k). do 2 f_equal. lia.
Qed.

(** A loop that returns has walked up an ancestor chain that ends. *)
Lemma get_level_loop_returns tbl fuel : forall level p n,
  get_level_loop fuel tbl level (Some p) = Some (Return n) ->
  exists d, has_depth tbl p d /\ n = (level + S d)%nat.
Proof.
  induction fuel as [|fuel IH]; intros level p n; [discriminate|].
  cbn. unfold parent_topic.
  destruct (parent_topic_id p) as [pk|] eqn:Hp.
  - destruct (get tbl pk) as [q|] eqn:Hq; cbn; [|discriminate].
    intros (d & Hd & ->)%IH. exists (S d). split; [|lia].
    eapply depth_child; eauto.
  - rewrite get_level_loop_None. intros [= <-]. exists 0%nat. split; [|lia].
    by apply depth_root.
Qed.

Lemma get_level_of_depth tbl self d k :
  has_depth tbl self d -> get_level (d + k) tbl self = Some (Return d).
Proof.
  intros Hd. unfold get_level, parent_topic. inversion Hd as [x Hx | x pk q d' Hx Hq Hd']; subst.
  - rewrite Hx. apply get_level_loop_None.
  - rewrite Hx, Hq. cbn [bind or_raise].
    rewrite (get_level_loop_depth tbl q d' Hd' 0%nat k). reflexivity.
Qed.

Lemma get_level_returns tbl fuel self n :
  get_level fuel tbl self = Some (Return n) -> has_depth tbl self n.
Proof.
  unfold get_level, parent_topic.
  destruct (parent_topic_id self) as [pk|] eqn:Hp.
  - destruct (get tbl pk) as [q|] eqn:Hq; cbn; [|discriminate].
    intros (d & Hd & ->)%get_level_loop_returns. eapply depth_child; eauto.
  - rewrite get_level_loop_None. intros [= <-]. by apply depth_root.
Qed.

(** On a topic that is its own parent the loop never ends. *)
Lemma get_level_loop_looping fuel : forall level,
  get_level_loop fuel looping_table level (Some looping_topic) = None.
Proof.
  induction fuel as [|fuel IH]; intros level; [reflexivity|].
  cbn [get_level_loop].
  change (parent_topic looping_table looping_topic) with (Return (Some looping_topic)).
  apply IH.
Qed.

(** C7 as stated fails: [get_level] has no guard against a cycle of parent
    links; on a topic that is its own parent it does not return, whatever the
    number of iterations allowed. *)
Lemma get_level_cycle_diverges :
  ~ exists fuel o, get_level fuel looping_table looping_topic = Some o.
Proof.
  intros (fuel & o & H). unfold get_level in H.
  change (parent_topic looping_table looping_topic)
    with (Return (Some looping_topic)) in H.
  cbv beta iota in H. rewrite get_level_loop_looping in H. discriminate.
Qed.

(** C7, amended.  [get_level] returns [d] exactly when the topic has depth
    [d], where the depth is 0 for a topic without parent and one more than
    the parent's otherwise; so it returns 0 on a root, one more than on the
    parent otherwise, and it terminates exactly on the topics whose ancestor
    chain ends.  Then [d] iterations are enough, and more iterations allowed
    change nothing. *)
Theorem get_level_returns_depth tbl self d :
  has_depth tbl self d <->
  exists fuel, forall fuel', (fuel <= fuel')%nat ->
    get_level fuel' tbl self = Some (Return d).
Proof.
  split.
  - intros Hd. exists d. intros fuel' Hle.
    replace fuel' with (d + (fuel' - d))%nat by lia.
    by apply get_level_of_depth.
  - intros [fuel H]. eapply get_level_returns. apply (H fuel). lia.
Qed.

Lemma get_level_returns_depth_witness :
  has_depth chain_table grandchild_topic 2 /\
  exists fuel, forall fuel', (fuel <= fuel')%nat ->
    get_level fuel' chain_table grandchild_topic = Some (Return 2%nat).
Proof.
  assert (H : has_depth chain_table grandchild_topic 2).
  { eapply depth_child; [reflexivity | reflexivity |].
    eapply depth_child; [reflexivity | reflexivity |].
    apply depth_root. reflexivity. }
  split; [exact H|].
  exact (proj1 (get_level_returns_depth chain_table grandchild_topic 2) H).
Defined.

(** Scenario C: the grandchild is at depth 2. *)
Example get_level_grandchild :
  get_level 2 chain_table grandchild_topic = Some (Return 2%nat).
Proof. reflexivity. Qed.

(** ** Children *)

Lemma insert_by_order_perm x l : insert_by_order x l ≡ₚ x :: l.
Proof.
  induction l as [|y l IH]; cbn; [done|].
  case_bool_decide; [done|]. rewrite IH. apply Permutation_swap.
Qed.

Lemma order_by_order_perm l : order_by_order l ≡ₚ l.
Proof.
  induction l as [|x l IH]; cbn; [done|].
  by rewrite insert_by_order_perm, IH.
Qed.

Lemma insert_by_order_sorted x l :
  StronglySorted order_le l -> StronglySorted order_le (insert_by_order x l).
Proof.
  induction 1 as [|y l Hl IH Hy]; cbn.
  - repeat constructor.
  - case_bool_decide as Hxy.
    + constructor; [by constructor|].
      constructor; [exact Hxy|].
      eapply Forall_impl; [exact Hy|]. unfold order_le in *. intros; lia.
    + constructor; [exact IH|].
      rewrite insert_by_order_perm. constructor; [|exact Hy].
      unfold order_le. lia.
Qed.

Lemma order_by_order_sorted l : StronglySorted order_le (order_by_order l).
Proof.
  induction l as [|x l IH]; cbn; [constructor|].
  by apply insert_by_order_sorted.
Qed.

(** What [get_children] does give: the direct children, by ascending
    [order]. *)
Lemma get_children_sorted_by_order tbl self :
  get_children tbl self ≡ₚ subtopics tbl self /\
  StronglySorted order_le (get_children tbl self).
Proof.
  split; [apply order_by_order_perm | apply order_by_order_sorted].
Qed.

(** C9, evaluated on two children with the same [order].  "Zebra" and
    "Apple" are the subtopics of one unit, both with [order] 0, stored in that
    order.  [get_children] returns Zebra before Apple: [order_by('order')]
    sorts by [order] alone and leaves equal keys as the storage yields them,
    although Apple comes first by title, the tie-break of
    [Meta.ordering]. *)
Theorem get_children_ties_not_by_title :
  get_children unit_table unit_topic = [zebra_topic; apple_topic] /\
  order zebra_topic = order apple_topic /\
  ~ meta_le zebra_topic apple_topic /\
  meta_le apple_topic zebra_topic.
Proof.
  split; [reflexivity|]. split; [reflexivity|]. split.
  - intros [H | [_ H]]; [cbn in H; lia | discriminate H].
  - right. split; reflexivity.
Qed.

(** ** The forest built by [_build_topic_tree] *)

Section build.
Context (today : Z) (include_tests : bool).

(** The first loop. *)

Lemma build_nodes_snoc l x :
  build_nodes today include_tests (l ++ [x]) =
  <[id x := make_node today include_tests x]> (build_nodes today include_tests l).
Proof. unfold build_nodes. by rewrite foldl_snoc. Qed.

Lemma build_nodes_is_Some l i :
  is_Some (build_nodes today include_tests l !! i) <-> i ∈ ids l.
Proof.
  induction l as [|x l IH] using rev_ind.
  - unfold build_nodes, ids. cbn. rewrite lookup_empty.
    split; [by intros [? ?]|]. by intros ?%elem_of_nil.
  - rewrite build_nodes_snoc. unfold ids in *. rewrite fmap_app, elem_of_app. cbn.
    rewrite list_elem_of_singleton.
    destruct (decide (id x = i)) as [->|Hne].
    + rewrite lookup_insert_eq. split; eauto.
    + rewrite lookup_insert_ne by done. rewrite IH.
      split; [auto|]. intros [?|?]; [done|congruence].
Qed.

Lemma build_nodes_lookup l x :
  NoDup (ids l) -> x ∈ l ->
  build_nodes today include_tests l !! id x = Some (make_node today include_tests x).
Proof.
  induction l as [|y l IH] using rev_ind; [by intros _ ?%elem_of_nil|].
  unfold ids. rewrite fmap_app. cbn.
  intros [Hl [Hdis _]]%NoDup_app [Hx | ->%list_elem_of_singleton]%elem_of_app.
  - rewrite build_nodes_snoc. rewrite lookup_insert_ne; [by apply IH|].
    intros Heq. apply (Hdis (id x)); [by apply list_elem_of_fmap_2|].
    rewrite <- Heq. by left.
  - rewrite build_nodes_snoc. by rewrite lookup_insert_eq.
Qed.

Lemma add_children_nil n : add_children [] n = n.
Proof. destruct n. unfold add_children. cbn. by rewrite app_nil_r. Qed.

Lemma append_child_add_children c cs n :
  append_child c (add_children cs n) = add_children (cs ++ [c]) n.
Proof. unfold append_child, add_children. cbn. by rewrite app_assoc. Qed.

Lemma linked_parent_ext d d' x :
  (forall p, is_Some (d !! p) <-> is_Some (d' !! p)) ->
  linked_parent d x = linked_parent d' x.
Proof.
  intros H. unfold linked_parent. destruct (parent_topic_id x) as [p|]; [|done].
  by rewrite (bool_decide_ext _ _ (H p)).
Qed.

Lemma link_topic_linked d t x :
  link_topic (d, t) x =
  match linked_parent d x with
  | Some p => (alter (append_child (id x)) p d, t)
  | None => (d, t ++ [id x])
  end.
Proof.
  unfold link_topic, linked_parent. destruct (parent_topic_id x) as [p|]; [|done].
  by destruct (truthy p && _).
Qed.

(** The second loop, from any dictionary and list: the topics without linked
    parent are appended to the list, the others to their parent's children,
    each in the order of the collection. *)
Lemma link_topics l : forall d0 t0,
  let st := foldl link_topic (d0, t0) l in
  st.2 = t0 ++ (id <$> filter (fun x => linked_parent d0 x = None) l) /\
  forall i, st.1 !! i =
    add_children (id <$> filter (fun x => linked_parent d0 x = Some i) l) <$> d0 !! i.
Proof.
  induction l as [|x l IH] using rev_ind; intros d0 t0.
  - cbn. split; [by rewrite app_nil_r|]. intros i.
    destruct (d0 !! i); cbn; [|done]. by rewrite add_children_nil.
  - cbn zeta. rewrite foldl_snoc. destruct (IH d0 t0) as [Ht Hd].
    destruct (foldl link_topic (d0, t0) l) as [d t]. cbn in Ht, Hd.
    rewrite link_topic_linked.
    rewrite (linked_parent_ext d d0 x)
      by (intros p; rewrite Hd; apply fmap_is_Some).
    destruct (linked_parent d0 x) as [p|] eqn:Hlp; cbn [fst snd].
    + split.
      * rewrite filter_app, filter_cons, filter_nil, decide_False by congruence.
        by rewrite app_nil_r.
      * intros i. rewrite filter_app, filter_cons, filter_nil.
        destruct (decide (p = i)) as [->|Hne].
        -- rewrite lookup_alter_eq, Hd, decide_True by done.
           rewrite fmap_app. destruct (d0 !! i); cbn; [|done].
           by rewrite append_child_add_children.
        -- rewrite lookup_alter_ne, Hd, decide_False by congruence.
           by rewrite app_nil_r.
    + split.
      * rewrite filter_app, filter_cons, filter_nil, decide_True by done.
        rewrite fmap_app, Ht. by rewrite app_assoc.
      * intros i. rewrite filter_app, filter_cons, filter_nil, decide_False by congruence.
        by rewrite Hd, app_nil_r.
Qed.

Section collection.
Context (topics : list RoadmapTopic).
Hypothesis Hnodup : NoDup (ids topics).
Hypothesis Hzero : 0%nat ∉ ids topics.

Lemma linked_parent_within x :
  linked_parent (build_nodes today include_tests topics) x = parent_within topics x.
Proof.
  unfold linked_parent, parent_within. destruct (parent_topic_id x) as [p|]; [|done].
  rewrite (bool_decide_ext _ _ (build_nodes_is_Some topics p)).
  case_bool_decide as Hp; [|by rewrite andb_false_r].
  rewrite andb_true_r. unfold truthy. destruct p; [done|reflexivity].
Qed.

Lemma built_roots :
  (_build_topic_tree today topics include_tests).2 = orphans topics.
Proof.
  unfold _build_topic_tree.
  destruct (link_topics topics (build_nodes today include_tests topics) []) as [-> _].
  cbn. unfold orphans. f_equal. apply list_filter_iff. intros x.
  by rewrite linked_parent_within.
Qed.

Lemma built_heap x :
  x ∈ topics ->
  (_build_topic_tree today topics include_tests).1 !! id x =
  Some (add_children (kids topics (id x)) (make_node today include_tests x)).
Proof.
  intros Hx. unfold _build_topic_tree.
  destruct (link_topics topics (build_nodes today include_tests topics) []) as [_ ->].
  rewrite build_nodes_lookup by done. cbn. do 2 f_equal. unfold kids. f_equal.
  apply list_filter_iff. intros y. by rewrite linked_parent_within.
Qed.
End collection.
End build.

(** ** Ancestor chains within a collection *)

Section chains.
Context (topics : list RoadmapTopic).
Hypothesis Hnodup : NoDup (ids topics).

Lemma id_inj x y : x ∈ topics -> y ∈ topics -> id x = id y -> x = y.
Proof.
  revert Hnodup. unfold ids. induction topics as [|z l IH]; [by intros _ ?%elem_of_nil|].
  cbn. intros [Hz Hl]%NoDup_cons [->|Hx]%elem_of_cons [->|Hy]%elem_of_cons Heq.
  - done.
  - destruct Hz. rewrite Heq. by apply list_elem_of_fmap_2.
  - destruct Hz. rewrite <- Heq. by apply list_elem_of_fmap_2.
  - by apply IH.
Qed.

Lemma get_Some i x : get topics i = Some x -> x ∈ topics /\ id x = i.
Proof.
  unfold get. intros [Hin Hid]%find_some.
  split; [by apply list_elem_of_In|]. by apply bool_decide_eq_true in Hid.
Qed.

Lemma get_elem x : x ∈ topics -> get topics (id x) = Some x.
Proof.
  intros Hx. destruct (get topics (id x)) as [y|] eqn:Hget.
  - apply get_Some in Hget as [Hy Hid]. f_equal. by apply id_inj.
  - unfold get in Hget. apply list_elem_of_In in Hx.
    pose proof (find_none _ _ Hget x Hx) as Hf. cbn in Hf.
    by rewrite bool_decide_eq_true_2 in Hf.
Qed.

Lemma up_elem x : x ∈ topics -> up topics (id x) = parent_within topics x.
Proof. intros Hx. unfold up. by rewrite get_elem. Qed.

Lemma up_Some i p :
  up topics i = Some p ->
  exists x, x ∈ topics /\ id x = i /\ parent_within topics x = Some p.
Proof.
  unfold up. destruct (get topics i) as [x|] eqn:Hget; [|done]. cbn.
  apply get_Some in Hget as [Hx Hid]. eauto.
Qed.

Lemma parent_within_ids x p : parent_within topics x = Some p -> p ∈ ids topics.
Proof.
  unfold parent_within. destruct (parent_topic_id x) as [q|]; [|done].
  case_bool_decide; [|done]. by intros [= <-].
Qed.

Lemma up_ids i p : up topics i = Some p -> i ∈ ids topics /\ p ∈ ids topics.
Proof.
  intros (x & Hx & <- & Hp)%up_Some. split.
  - by apply list_elem_of_fmap_2.
  - by eapply parent_within_ids.
Qed.

Lemma elem_of_kids c i : c ∈ kids topics i <-> up topics c = Some i.
Proof.
  unfold kids. rewrite list_elem_of_fmap. split.
  - intros (y & -> & [Hp Hy]%list_elem_of_filter). by rewrite up_elem.
  - intros (x & Hx & <- & Hp)%up_Some. exists x. split; [done|].
    by apply list_elem_of_filter.
Qed.

Lemma elem_of_orphans r : r ∈ orphans topics <-> r ∈ ids topics /\ up topics r = None.
Proof.
  unfold orphans, ids. rewrite !list_elem_of_fmap. split.
  - intros (y & -> & [Hp Hy]%list_elem_of_filter). rewrite up_elem by done. eauto.
  - intros [(x & -> & Hx) Hup]. rewrite up_elem in Hup by done.
    exists x. split; [done|]. by apply list_elem_of_filter.
Qed.

Lemma NoDup_kids i : NoDup (kids topics i).
Proof.
  unfold kids. eapply sublist_NoDup; [exact Hnodup|].
  apply fmap_sublist, sublist_filter.
Qed.

Lemma NoDup_orphans : NoDup (orphans topics).
Proof.
  unfold orphans. eapply sublist_NoDup; [exact Hnodup|].
  apply fmap_sublist, sublist_filter.
Qed.

(** Steps up compose. *)
Lemma anc_add j k i : anc topics (j + k) i = anc topics j i ≫= anc topics k.
Proof.
  revert i. induction j as [|j IH]; intros i; [done|].
  cbn. destruct (up topics i) as [p|]; cbn; [apply IH | done].
Qed.

Lemma anc_S_top k i : anc topics (S k) i = anc topics k i ≫= up topics.
Proof.
  replace (S k) with (k + 1)%nat by lia. rewrite anc_add.
  destruct (anc topics k i) as [y|]; cbn; [|done]. by destruct (up topics y).
Qed.

Lemma anc_ids k i j : i ∈ ids topics -> anc topics k i = Some j -> j ∈ ids topics.
Proof.
  revert i. induction k as [|k IH]; intros i Hi; cbn; [by intros [= <-]|].
  destruct (up topics i) as [p|] eqn:Hup; cbn; [|done].
  apply IH. by apply up_ids in Hup as [_ ?].
Qed.

(** Chains in terms of steps up. *)
Lemma chain_ends_inv i d :
  chain_ends topics i d ->
  i ∈ ids topics /\
  match d with
  | O => up topics i = None
  | S d' => exists p, up topics i = Some p /\ chain_ends topics p d'
  end.
Proof.
  destruct 1 as [x Hx Hp | x p d Hx Hp Hd].
  - split; [by apply list_elem_of_fmap_2|]. by rewrite up_elem.
  - split; [by apply list_elem_of_fmap_2|]. exists p. by rewrite up_elem.
Qed.

Lemma chain_ends_anc i d :
  chain_ends topics i d ->
  exists r, anc topics d i = Some r /\ r ∈ orphans topics.
Proof.
  induction 1 as [x Hx Hp | x p d Hx Hp Hd (r & Hr & Hroot)].
  - exists (id x). split; [done|]. apply elem_of_orphans.
    split; [by apply list_elem_of_fmap_2 | by rewrite up_elem].
  - exists r. split; [|done]. cbn. rewrite up_elem, Hp by done. exact Hr.
Qed.

Lemma chain_ends_fun i d : chain_ends topics i d -> forall d', chain_ends topics i d' -> d = d'.
Proof.
  induction 1 as [x Hx Hp | x p d Hx Hp Hd IH]; intros d' [_ H']%chain_ends_inv.
  - destruct d' as [|d']; [done|]. destruct H' as (q & Hq & _).
    rewrite up_elem in Hq by done. congruence.
  - destruct d' as [|d'].
    + rewrite up_elem in H' by done. congruence.
    + destruct H' as (q & Hq & Hd'). rewrite up_elem in Hq by done.
      f_equal. apply IH. congruence.
Qed.

Lemma chain_ends_above j : forall i d y,
  chain_ends topics i d -> anc topics j i = Some y ->
  (j <= d)%nat /\ chain_ends topics y (d - j).
Proof.
  induction j as [|j IH]; intros i d y Hd.
  - cbn. intros [= <-]. split; [lia|]. by rewrite Nat.sub_0_r.
  - cbn. destruct (up topics i) as [p|] eqn:Hup; cbn; [|done]. intros Hy.
    apply chain_ends_inv in Hd as [_ Hd]. destruct d as [|d]; [congruence|].
    destruct Hd as (q & Hq & Hd). assert (q = p) as -> by congruence.
    destruct (IH p d y Hd Hy) as [Hle Hy']. split; [lia|]. exact Hy'.
Qed.

(** No topic of an acyclic collection is its own ancestor. *)
Lemma anc_no_cycle i k d : chain_ends topics i d -> anc topics (S k) i <> Some i.
Proof.
  intros Hd Hcyc. destruct (chain_ends_above _ _ _ _ Hd Hcyc) as [Hle Hd'].
  pose proof (chain_ends_fun _ _ Hd _ Hd'). lia.
Qed.

End chains.

(** ** Flattening the built forest *)

Section flatten.
Context (today : Z) (include_tests : bool) (topics : list RoadmapTopic).
Hypothesis Hnodup : NoDup (ids topics).
Hypothesis Hzero : 0%nat ∉ ids topics.
Hypothesis Hacyclic : acyclic topics.

#[local] Abbreviation heap := (_build_topic_tree today topics include_tests).1.

Lemma flatten_node_unfold fuel above i :
  i ∈ ids topics ->
  flatten_node (S fuel) heap above i =
  (i, above) :: (kids topics i ≫= flatten_node fuel heap (Some i)).
Proof.
  intros (x & -> & Hx)%list_elem_of_fmap. cbn [flatten_node].
  rewrite built_heap by done. reflexivity.
Qed.

Lemma kids_ids c i : c ∈ kids topics i -> c ∈ ids topics.
Proof. intros Hc%elem_of_kids; [|done]. by apply up_ids in Hc as [? _]. Qed.

Lemma chain_of_id i : i ∈ ids topics -> exists d, chain_ends topics i d.
Proof. intros (x & -> & Hx)%list_elem_of_fmap. by apply Hacyclic. Qed.

(** Everything listed below a node has that node as an ancestor. *)
Lemma flatten_node_elem fuel : forall above r y q,
  r ∈ ids topics ->
  (y, q) ∈ flatten_node fuel heap above r ->
  exists k, (k < fuel)%nat /\ anc topics k y = Some r /\
            q = match k with O => above | S _ => up topics y end.
Proof.
  induction fuel as [|fuel IH]; intros above r y q Hr; [by intros ?%elem_of_nil|].
  rewrite flatten_node_unfold by done.
  intros [[= -> ->] | (c & Hin & Hc)%list_elem_of_bind]%elem_of_cons.
  - exists 0%nat. split; [lia|]. done.
  - destruct (IH _ _ _ _ (kids_ids _ _ Hc) Hin) as (k & Hk & Hanc & Hq).
    apply elem_of_kids in Hc; [|done].
    exists (S k). split; [lia|]. split.
    + rewrite anc_S_top, Hanc. exact Hc.
    + destruct k as [|k]; [|done]. cbn in Hanc. injection Hanc as ->. congruence.
Qed.

(** Every topic with the node as an ancestor, close enough, is listed. *)
Lemma flatten_node_complete k : forall fuel above r y,
  r ∈ ids topics -> anc topics k y = Some r -> (k < fuel)%nat ->
  (y, match k with O => above | S _ => up topics y end)
    ∈ flatten_node fuel heap above r.
Proof.
  induction k as [|k IH]; intros fuel above r y Hr Hanc Hlt;
    (destruct fuel as [|fuel]; [lia|]); rewrite flatten_node_unfold by done.
  - cbn in Hanc. injection Hanc as ->. by left.
  - right. rewrite anc_S_top in Hanc.
    destruct (anc topics k y) as [c|] eqn:Hc; [|done]. cbn in Hanc.
    apply list_elem_of_bind. exists c. split; [|by apply elem_of_kids].
    assert (Hcid : c ∈ ids topics) by (by apply up_ids in Hanc as [? _]).
    pose proof (IH fuel (Some r) c y Hcid Hc ltac:(lia)) as Hin.
    destruct k as [|k]; [|done]. cbn in Hc. injection Hc as ->. by rewrite Hanc.
Qed.

Lemma NoDup_flatten_node fuel : forall above r,
  r ∈ ids topics -> NoDup (flatten_node fuel heap above r).
Proof.
  induction fuel as [|fuel IH]; intros above r Hr; [constructor|].
  rewrite flatten_node_unfold by done.
  destruct (chain_of_id r Hr) as [d Hd].
  apply NoDup_cons. split.
  - intros (c & Hin & Hc)%list_elem_of_bind.
    destruct (flatten_node_elem _ _ _ _ _ (kids_ids _ _ Hc) Hin) as (k & _ & Hanc & _).
    apply elem_of_kids in Hc; [|done].
    apply (anc_no_cycle topics Hnodup r k d Hd).
    by rewrite anc_S_top, Hanc.
  - apply NoDup_bind; [| |by apply NoDup_kids].
    + intros c1 c2 [y q] Hc1 Hc2 Hin1 Hin2.
      destruct (flatten_node_elem _ _ _ _ _ (kids_ids _ _ Hc1) Hin1) as (k1 & _ & Hanc1 & _).
      destruct (flatten_node_elem _ _ _ _ _ (kids_ids _ _ Hc2) Hin2) as (k2 & _ & Hanc2 & _).
      apply elem_of_kids in Hc1, Hc2; [|done..].
      assert (Hy : y ∈ ids topics).
      { destruct k1 as [|k1].
        - cbn in Hanc1. injection Hanc1 as ->. by apply up_ids in Hc1 as [? _].
        - cbn in Hanc1. destruct (up topics y) eqn:Hup; [|done].
          by apply up_ids in Hup as [? _]. }
      destruct (chain_of_id y Hy) as [dy Hdy].
      assert (Ha1 : anc topics (S k1) y = Some r) by (by rewrite anc_S_top, Hanc1).
      assert (Ha2 : anc topics (S k2) y = Some r) by (by rewrite anc_S_top, Hanc2).
      destruct (chain_ends_above topics Hnodup _ _ _ _ Hdy Ha1) as [Hle1 Hr1].
      destruct (chain_ends_above topics Hnodup _ _ _ _ Hdy Ha2) as [Hle2 Hr2].
      pose proof (chain_ends_fun topics Hnodup _ _ Hr1 _ Hr2).
      assert (k1 = k2) as -> by lia. congruence.
    + intros c Hc. apply IH. by eapply kids_ids.
Qed.

(** An ancestor chain visits distinct topics, so it is shorter than the
    collection. *)
Lemma path_chain i d :
  chain_ends topics i d ->
  length (path topics d i) = S d /\
  NoDup (path topics d i) /\
  forall y, y ∈ path topics d i ->
    y ∈ ids topics /\ exists d', (d' <= d)%nat /\ chain_ends topics y d'.
Proof.
  induction 1 as [x Hx Hp | x p d Hx Hp Hd (Hlen & Hnd & Hall)].
  - cbn. split; [done|]. split; [apply NoDup_singleton|].
    intros y ->%list_elem_of_singleton. split; [by apply list_elem_of_fmap_2|].
    exists 0%nat. split; [lia|]. by apply chain_root.
  - cbn. rewrite up_elem, Hp by done. cbn. split; [by rewrite Hlen|].
    assert (Hx' : chain_ends topics (id x) (S d)) by (by eapply chain_step).
    split.
    + apply NoDup_cons. split; [|done]. intros (_ & d' & Hle & Hd')%Hall.
      pose proof (chain_ends_fun topics Hnodup _ _ Hx' _ Hd'). lia.
    + intros y [->|Hy]%elem_of_cons.
      * split; [by apply list_elem_of_fmap_2|]. exists (S d). split; [lia|done].
      * destruct (Hall y Hy) as (Hyid & d' & Hle & Hd'). split; [done|].
        exists d'. split; [lia|done].
Qed.

Lemma chain_ends_bound i d : chain_ends topics i d -> (d < length topics)%nat.
Proof.
  intros (Hlen & Hnd & Hall)%path_chain.
  assert (Hsub : path topics d i ⊆+ ids topics).
  { apply NoDup_submseteq; [done|]. intros y Hy. by apply Hall. }
  apply submseteq_length in Hsub. unfold ids in Hsub.
  rewrite length_fmap in Hsub. lia.
Qed.

Lemma NoDup_edges : NoDup (edges topics).
Proof.
  apply (NoDup_fmap_1 fst). unfold edges. rewrite <- list_fmap_compose. exact Hnodup.
Qed.

Lemma elem_of_edges y q :
  (y, q) ∈ edges topics <-> y ∈ ids topics /\ q = up topics y.
Proof.
  unfold edges, ids. rewrite !list_elem_of_fmap. split.
  - intros (x & [= -> ->] & Hx). split; [eauto|]. by rewrite up_elem.
  - intros [(x & -> & Hx) ->]. exists x. split; [|done]. by rewrite up_elem.
Qed.

Lemma NoDup_flatten fuel :
  NoDup (flatten fuel (_build_topic_tree today topics include_tests)).
Proof.
  unfold flatten. rewrite built_roots by done.
  apply NoDup_bind; [| |by apply NoDup_orphans].
  - intros r1 r2 [y q] [Hr1 Hup1]%elem_of_orphans [Hr2 Hup2]%elem_of_orphans Hin1 Hin2;
      [|done..].
    destruct (flatten_node_elem _ _ _ _ _ Hr1 Hin1) as (k1 & _ & Hanc1 & _).
    destruct (flatten_node_elem _ _ _ _ _ Hr2 Hin2) as (k2 & _ & Hanc2 & _).
    destruct (decide (k1 = k2)) as [->|Hne]; [congruence|].
    exfalso. destruct (decide (k1 < k2)%nat).
    + replace k2 with (k1 + S (k2 - k1 - 1))%nat in Hanc2 by lia.
      rewrite anc_add, Hanc1 in Hanc2. cbn in Hanc2. by rewrite Hup1 in Hanc2.
    + replace k1 with (k2 + S (k1 - k2 - 1))%nat in Hanc1 by lia.
      rewrite anc_add, Hanc2 in Hanc1. cbn in Hanc1. by rewrite Hup2 in Hanc1.
  - intros r [Hr _]%elem_of_orphans; [|done]. by apply NoDup_flatten_node.
Qed.

Lemma elem_of_flatten fuel y q :
  (length topics <= fuel)%nat ->
  (y, q) ∈ flatten fuel (_build_topic_tree today topics include_tests) <->
  (y, q) ∈ edges topics.
Proof.
  intros Hfuel. unfold flatten. rewrite built_roots by done.
  rewrite list_elem_of_bind, elem_of_edges. split.
  - intros (r & Hin & [Hr Hup]%elem_of_orphans); [|done].
    destruct (flatten_node_elem _ _ _ _ _ Hr Hin) as (k & _ & Hanc & ->).
    destruct k as [|k].
    + cbn in Hanc. injection Hanc as ->. done.
    + split; [|done]. cbn in Hanc. destruct (up topics y) eqn:Hy; [|done].
      by apply up_ids in Hy as [? _].
  - intros [Hy ->]. destruct (chain_of_id y Hy) as [d Hd].
    destruct (chain_ends_anc topics Hnodup _ _ Hd) as (r & Hanc & Hr).
    exists r. split; [|done].
    apply elem_of_orphans in Hr as [Hr Hup]; [|done].
    pose proof (chain_ends_bound _ _ Hd) as Hlt.
    pose proof (flatten_node_complete d fuel None r y Hr Hanc ltac:(lia)) as Hin.
    destruct d as [|d]; [|done]. cbn in Hanc. injection Hanc as ->. by rewrite Hup.
Qed.

End flatten.

(** C6. For a collection of topics with distinct, nonzero ids (primary keys)
    whose parent links within the collection form no cycle, the forest built
    by [_build_topic_tree] and then flattened, with at least as much fuel as
    there are topics, lists exactly the topics of the collection, each once
    and each with its parent within the collection: the same number of
    entries as topics, the edge to its parent for every topic whose parent is
    in the collection, and a root entry for every topic whose parent is absent
    or outside the collection. *)
Theorem build_topic_tree_round_trip today include_tests topics fuel :
  NoDup (ids topics) ->
  0%nat ∉ ids topics ->
  acyclic topics ->
  (length topics <= fuel)%nat ->
  (flatten fuel (_build_topic_tree today topics include_tests) ≡ₚ edges topics) /\
  length (flatten fuel (_build_topic_tree today topics include_tests)) = length topics /\
  (forall x p, x ∈ topics -> parent_topic_id x = Some p -> p ∈ ids topics ->
     (id x, Some p) ∈ flatten fuel (_build_topic_tree today topics include_tests)) /\
  (forall x, x ∈ topics -> parent_within topics x = None ->
     (id x, None) ∈ flatten fuel (_build_topic_tree today topics include_tests)).
Proof.
  intros Hnodup Hzero Hacyclic Hfuel.
  assert (Hperm : flatten fuel (_build_topic_tree today topics include_tests)
                  ≡ₚ edges topics).
  { apply NoDup_Permutation.
    - by apply NoDup_flatten.
    - by apply NoDup_edges.
    - intros [y q]. by apply elem_of_flatten. }
  split; [exact Hperm|]. split; [|split].
  - rewrite Hperm. unfold edges. by rewrite length_fmap.
  - intros x p Hx Hp Hin. rewrite Hperm. unfold edges.
    apply list_elem_of_fmap. exists x. split; [|done].
    unfold parent_within. rewrite Hp. by rewrite bool_decide_eq_true_2.
  - intros x Hx Hp. rewrite Hperm. unfold edges.
    apply list_elem_of_fmap. exists x. split; [|done]. by rewrite Hp.
Qed.

Lemma acyclic_chain_table : acyclic chain_table.
Proof.
  intros x Hx. unfold chain_table in Hx.
  repeat (apply elem_of_cons in Hx as [->|Hx]); [| | |by apply elem_of_nil in Hx].
  - exists 0%nat. apply chain_root; [by left | reflexivity].
  - exists 1%nat. apply (chain_step _ child_topic 1%nat 0%nat);
      [by (right; left) | reflexivity |].
    apply (chain_root _ root_topic); [by left | reflexivity].
  - exists 2%nat. apply (chain_step _ grandchild_topic 2%nat 1%nat);
      [by (right; right; left) | reflexivity |].
    apply (chain_step _ child_topic 1%nat 0%nat);
      [by (right; left) | reflexivity |].
    apply (chain_root _ root_topic); [by left | reflexivity].
Qed.

Lemma build_topic_tree_round_trip_witness :
  (NoDup (ids chain_table) /\ (0%nat ∉ ids chain_table) /\ acyclic chain_table /\
   (length chain_table <= 3)%nat) /\
  (flatten 3 (_build_topic_tree 0 chain_table false) ≡ₚ edges chain_table) /\
  length (flatten 3 (_build_topic_tree 0 chain_table false)) = length chain_table.
Proof.
  assert (H1 : NoDup (ids chain_table))
    by (apply (bool_decide_unpack _); vm_compute; exact I).
  assert (H2 : 0%nat ∉ ids chain_table)
    by (apply (bool_decide_unpack _); vm_compute; exact I).
  assert (H3 : (length chain_table <= 3)%nat) by (cbn; lia).
  split; [by auto using acyclic_chain_table|].
  destruct (build_topic_tree_round_trip 0 false chain_table 3 H1 H2 acyclic_chain_table H3)
    as (Hp & Hl & _).
  split; [exact Hp | exact Hl].
Defined.

(** Scenario C, built and flattened. *)
Example flatten_chain :
  flatten 3 (_build_topic_tree 0 chain_table false)
  = [(1, None); (2, Some 1); (3, Some 2)]%nat.
Proof. vm_compute. reflexivity. Qed.

(** A topic whose parent is outside the collection becomes a root. *)
Example flatten_orphan :
  flatten 2 (_build_topic_tree 0 orphan_table false) = [(5, None); (6, Some 5)]%nat.
Proof. vm_compute. reflexivity. Qed.

(** Why the hypotheses are there: the topics of a cycle hang under no root
    and are not listed, and a parent key 0 counts as no parent. *)
Example flatten_cycle :
  flatten 3 (_build_topic_tree 0 cyclic_table false) = [(3, None)]%nat.
Proof. vm_compute. reflexivity. Qed.

Example flatten_zero_key :
  flatten 2 (_build_topic_tree 0 zero_key_table false) = [(0, None); (6, None)]%nat.
Proof. vm_compute. reflexivity. Qed.

End RoadmapFacts.

(** * Further properties of the fee ledger *)

Module FeesMore.
Import Fees FeesFacts.

(** ** What [save] leaves alone *)

Lemma student_rows_check_discontinuation_ne self db s :
  s <> student self ->
  student_rows (_check_discontinuation self db) !! s = student_rows db !! s.
Proof.
  intros Hne.
  unfold _check_discontinuation, try_except_pass, check_discontinuation_body.
  destruct (student_rows db !! student self); cbn; [|done].
  by rewrite lookup_insert_ne.
Qed.

Lemma parent_check_discontinuation self db s :
  parent <$> student_rows (_check_discontinuation self db) !! s
  = parent <$> student_rows db !! s.
Proof.
  unfold _check_discontinuation, try_except_pass, check_discontinuation_body.
  destruct (student_rows db !! student self) as [st|] eqn:Hst; cbn; [|done].
  destruct (decide (student self = s)) as [<-|Hne].
  - rewrite lookup_insert_eq, Hst. by case_bool_decide.
  - by rewrite lookup_insert_ne.
Qed.

Lemma profile_rows_update_parent_pending_ne self db u :
  guardian_of db (student self) <> Some u ->
  profile_rows (_update_parent_pending self db) !! u = profile_rows db !! u.
Proof.
  unfold guardian_of.
  unfold _update_parent_pending, try_except_pass, update_parent_pending_body.
  destruct (student_rows db !! student self) as [st|]; cbn; [|done].
  destruct (parent st) as [g|]; cbn; [|done].
  unfold read_profile.
  destruct (profile_rows db !! g) as [p|]; cbn; [|done].
  destruct (fits_field (pending_amount p)); cbn; [|done].
  intros Hne. rewrite lookup_insert_ne; [done|congruence].
Qed.

Lemma save_student_rows_ne today pk self db db' s :
  save today pk self db = Return db' -> s <> student self ->
  student_rows db' !! s = student_rows db !! s.
Proof.
  intros [_ ->]%save_Return Hne.
  rewrite student_rows_check_discontinuation_ne
    by (by destruct (pre_save_other_fields today self) as [-> _]).
  by rewrite student_rows_update_parent_pending.
Qed.

Lemma save_parent today pk self db db' s :
  save today pk self db = Return db' ->
  parent <$> student_rows db' !! s = parent <$> student_rows db !! s.
Proof.
  intros [_ ->]%save_Return.
  by rewrite parent_check_discontinuation, student_rows_update_parent_pending.
Qed.

Lemma save_profile_rows_ne today pk self db db' u :
  save today pk self db = Return db' ->
  guardian_of db (student self) <> Some u ->
  profile_rows db' !! u = profile_rows db !! u.
Proof.
  intros [_ ->]%save_Return Hne.
  rewrite profile_rows_check_discontinuation.
  rewrite profile_rows_update_parent_pending_ne; [done|].
  destruct (pre_save_other_fields today self) as [-> _]. exact Hne.
Qed.

(** X1. A completed [save] of row [pk] for student S leaves alone: every other
    fee row, every other student row, the guardian link of every student
    (of S too), and every profile other than that of the guardian of S. *)
Theorem save_touches_only today pk self db db' :
  save today pk self db = Return db' ->
  (forall k, k <> pk -> fee_rows db' !! k = fee_rows db !! k) /\
  (forall s, s <> student self -> student_rows db' !! s = student_rows db !! s) /\
  (forall s, parent <$> student_rows db' !! s = parent <$> student_rows db !! s) /\
  (forall u, guardian_of db (student self) <> Some u ->
     profile_rows db' !! u = profile_rows db !! u).
Proof.
  intros Hs. split; [|split; [|split]].
  - intros k Hk. rewrite (save_fee_rows _ _ _ _ _ Hs). by rewrite lookup_insert_ne.
  - intros s Hne. by eapply save_student_rows_ne.
  - intros s. by eapply save_parent.
  - intros u Hne. by eapply save_profile_rows_ne.
Qed.

Lemma save_touches_only_witness :
  save 75 1 (fee_jan paid) ledger_A = Return ledger_B /\
  (forall k, k <> 1%nat -> fee_rows ledger_B !! k = fee_rows ledger_A !! k) /\
  (forall s, s <> 7%nat -> student_rows ledger_B !! s = student_rows ledger_A !! s).
Proof.
  assert (Hs : save 75 1 (fee_jan paid) ledger_A = Return ledger_B)
    by (vm_compute; reflexivity).
  split; [exact Hs|].
  destruct (save_touches_only 75 1 (fee_jan paid) ledger_A ledger_B Hs) as (H1 & H2 & _).
  split; [exact H1 | exact H2].
Defined.

Lemma write_allowed_iff pk self db :
  write_allowed pk self db = true <->
  is_Some (student_rows db !! student self) /\
  forall k r, fee_rows db !! k = Some r -> k <> pk ->
    ~ (student r = student self /\ month r = month self).
Proof.
  unfold write_allowed. rewrite andb_true_iff, bool_decide_eq_true.
  rewrite <- Is_true_true, forallb_True, Forall_forall.
  split; intros [Hst Hall]; (split; [exact Hst|]).
  - intros k r Hr Hk. apply elem_of_map_to_list in Hr.
    specialize (Hall (k, r) Hr). cbn in Hall.
    apply orb_prop_elim in Hall as [Hall|Hall].
    + by apply bool_decide_unpack in Hall.
    + apply negb_prop_elim in Hall. intros [Hs Hm]. apply Hall.
      apply andb_prop_intro. split; by apply bool_decide_pack.
  - intros [k r] Hr%elem_of_map_to_list. cbn.
    destruct (decide (k = pk)) as [->|Hne].
    + apply orb_prop_intro. left. by apply bool_decide_pack.
    + apply orb_prop_intro. right. apply negb_prop_intro.
      intros [Hs%bool_decide_unpack Hm%bool_decide_unpack]%andb_prop_elim.
      by apply (Hall k r Hr Hne).
Qed.

Lemma with_is_active_twice b st : with_is_active b (with_is_active b st) = with_is_active b st.
Proof. reflexivity. Qed.

(** The two recompute steps, each as one case distinction. *)
Lemma update_parent_pending_eq self db :
  _update_parent_pending self db =
  match student_rows db !! student self with
  | Some st =>
      match parent st with
      | Some g =>
          match profile_rows db !! g with
          | Some p =>
              if fits_field (pending_amount p) then
                mkDB (fee_rows db) (student_rows db)
                     (<[g := mkProfile (student_outstanding db (student self))]>
                        (profile_rows db))
              else db
          | None => db
          end
      | None => db
      end
  | None => db
  end.
Proof.
  unfold _update_parent_pending, try_except_pass, update_parent_pending_body.
  destruct (student_rows db !! student self) as [st|]; cbn; [|done].
  destruct (parent st) as [g|]; cbn; [|done].
  unfold read_profile.
  destruct (profile_rows db !! g) as [p|]; cbn; [|done].
  by destruct (fits_field (pending_amount p)).
Qed.



Lemma save_student_is_Some today pk self db db' s :
  save today pk self db = Return db' ->
  is_Some (student_rows db' !! s) <-> is_Some (student_rows db !! s).
Proof.
  intros Hs. rewrite <- (fmap_is_Some parent (student_rows db' !! s)).
  rewrite (save_parent _ _ _ _ _ s Hs). apply fmap_is_Some.
Qed.



(** ** Totals under a row write *)

Lemma sum_fees_perm l l' : l ≡ₚ l' -> sum_fees l = sum_fees l'.
Proof.
  induction 1 as [|x l l' _ IH|x y l|l l' l'' _ IH1 _ IH2]; cbn.
  - reflexivity.
  - unfold sum_fees in IH. rewrite IH. reflexivity.
  - lia.
  - congruence.
Qed.

Lemma rows_insert (m : gmap nat FeesStatus) pk (r' : FeesStatus) :
  (map_to_list (<[pk := r']> m)).*2 ≡ₚ r' :: (map_to_list (delete pk m)).*2.
Proof.
  rewrite <- insert_delete_eq.
  rewrite map_to_list_insert by apply lookup_delete_eq. reflexivity.
Qed.

Lemma rows_lookup (m : gmap nat FeesStatus) pk (r : FeesStatus) :
  m !! pk = Some r -> (map_to_list m).*2 ≡ₚ r :: (map_to_list (delete pk m)).*2.
Proof. intros Hr. by rewrite <- (map_to_list_delete m pk r Hr). Qed.

(** Replacing the row under [pk] moves a filtered sum and a filtered count
    by the parts of the old and the new row. *)
Lemma filtered_insert (P : FeesStatus -> Prop) `{!forall f, Decision (P f)}
    (m : gmap nat FeesStatus) pk r r' :
  m !! pk = Some r ->
  sum_fees (filter P (map_to_list (<[pk := r']> m)).*2)
    + (if decide (P r) then fees r else 0)
  = sum_fees (filter P (map_to_list m).*2)
    + (if decide (P r') then fees r' else 0) /\
  (length (filter P (map_to_list (<[pk := r']> m)).*2)
    + (if decide (P r) then 1 else 0)
  = length (filter P (map_to_list m).*2)
    + (if decide (P r') then 1 else 0))%nat.
Proof.
  intros Hr.
  rewrite (sum_fees_perm _ _ (filter_Permutation P _ _ (rows_insert m pk r'))).
  rewrite (sum_fees_perm _ _ (filter_Permutation P _ _ (rows_lookup m pk r Hr))).
  rewrite (Permutation_length (filter_Permutation P _ _ (rows_insert m pk r'))).
  rewrite (Permutation_length (filter_Permutation P _ _ (rows_lookup m pk r Hr))).
  rewrite !filter_cons. unfold sum_fees.
  destruct (decide (P r)), (decide (P r')); cbn; split; lia.
Qed.

Lemma outstanding_part_pre_save today s r :
  outstanding_part (pre_save today (with_status s r)) = outstanding_part (with_status s r).
Proof.
  unfold outstanding_part. rewrite status_pre_save.
  by destruct (pre_save_other_fields today (with_status s r)) as (_ & _ & -> & _).
Qed.

Lemma overdue_part_pre_save today s r :
  overdue_part (pre_save today (with_status s r)) = overdue_part (with_status s r).
Proof. unfold overdue_part. by rewrite status_pre_save. Qed.

(** The totals of student [s'] after row [pk], which held [r], has been
    saved as [self]. *)
Lemma save_totals today pk self db db' r s' :
  fee_rows db !! pk = Some r ->
  save today pk self db = Return db' ->
  student_outstanding db' s'
    + (if decide (student r = s') then outstanding_part r else 0)
  = student_outstanding db s'
    + (if decide (student self = s') then outstanding_part (pre_save today self) else 0) /\
  (overdue_count db' s'
    + (if decide (student r = s') then overdue_part r else 0)
  = overdue_count db s'
    + (if decide (student self = s') then overdue_part (pre_save today self) else 0))%nat.
Proof.
  intros Hr Hs. pose proof (save_fee_rows _ _ _ _ _ Hs) as Hrows.
  unfold student_outstanding, overdue_count, count_fees, filter_fees. rewrite Hrows.
  destruct (pre_save_other_fields today self) as (Hst & _).
  split.
  - destruct (filtered_insert (fun f => student f = s' /\ status f ∈ [unpaid; overdue])
                (fee_rows db) pk r (pre_save today self) Hr) as [H _].
    unfold outstanding_part. rewrite <- Hst.
    revert H. repeat case_decide; repeat case_bool_decide; intros; try lia; tauto.
  - destruct (filtered_insert (fun f => student f = s' /\ status f ∈ [overdue])
                (fee_rows db) pk r (pre_save today self) Hr) as [_ H].
    unfold overdue_part. rewrite <- Hst.
    revert H. repeat case_decide; repeat case_bool_decide; intros; try lia; tauto.
Qed.

(** X4. A completed [set_status] moves the outstanding amount and the number
    of overdue records of the record's student by exactly the parts of the
    record before and after (its fees when unpaid or overdue, one when
    overdue), and leaves the totals of every other student as they were. *)
Theorem set_status_moves_totals today pk s db db' r :
  fee_rows db !! pk = Some r ->
  set_status today pk s db = Return db' ->
  student_outstanding db' (student r) + outstanding_part r
    = student_outstanding db (student r) + outstanding_part (with_status s r) /\
  (overdue_count db' (student r) + overdue_part r
    = overdue_count db (student r) + overdue_part (with_status s r))%nat /\
  (forall s', s' <> student r ->
     student_outstanding db' s' = student_outstanding db s' /\
     overdue_count db' s' = overdue_count db s').
Proof.
  intros Hr. unfold set_status. rewrite Hr. cbn [bind or_raise]. intros Hs.
  assert (Htot := fun s' => save_totals _ _ _ _ _ _ s' Hr Hs).
  change (student (with_status s r)) with (student r) in Htot.
  split; [|split].
  - destruct (Htot (student r)) as [H _].
    rewrite outstanding_part_pre_save in H. by rewrite !decide_True in H.
  - destruct (Htot (student r)) as [_ H].
    rewrite overdue_part_pre_save in H. by rewrite !decide_True in H.
  - intros s' Hne. destruct (Htot s') as [H1 H2].
    rewrite !decide_False in H1 by done. rewrite !decide_False in H2 by done.
    split; lia.
Qed.

Lemma set_status_moves_totals_witness :
  (fee_rows ledger_A !! 1%nat = Some (fee_jan overdue) /\
   set_status 75 1 paid ledger_A = Return ledger_B) /\
  student_outstanding ledger_B 7 + outstanding_part (fee_jan overdue)
    = student_outstanding ledger_A 7 + outstanding_part (fee_jan paid) /\
  (overdue_count ledger_B 7 + overdue_part (fee_jan overdue)
    = overdue_count ledger_A 7 + overdue_part (fee_jan paid))%nat.
Proof.
  assert (Hr : fee_rows ledger_A !! 1%nat = Some (fee_jan overdue))
    by (vm_compute; reflexivity).
  assert (Hs : set_status 75 1 paid ledger_A = Return ledger_B)
    by (vm_compute; reflexivity).
  split; [by split|].
  destruct (set_status_moves_totals 75 1 paid ledger_A ledger_B (fee_jan overdue) Hr Hs)
    as (H1 & H2 & _).
  split; [exact H1 | exact H2].
Defined.

(** ** The table constraints as an invariant *)

Lemma ledger_okb_ok db : ledger_okb db = true -> ledger_ok db.
Proof.
  unfold ledger_okb. rewrite <- Is_true_true, forallb_True, Forall_forall.
  intros Hall pk r Hr%elem_of_map_to_list. apply Is_true_true. exact (Hall _ Hr).
Qed.

Lemma write_allowed_ext pk a b db :
  student a = student b -> month a = month b ->
  write_allowed pk a db = write_allowed pk b db.
Proof. unfold write_allowed. by intros -> ->. Qed.

Lemma save_keeps_ok today pk self db db' :
  ledger_ok db -> save today pk self db = Return db' -> ledger_ok db'.
Proof.
  intros Hok Hs k r Hr.
  pose proof (save_fee_rows _ _ _ _ _ Hs) as Hrows.
  pose proof Hs as [[Hst Hall]%write_allowed_iff _]%save_Return.
  apply write_allowed_iff. rewrite Hrows in Hr. split.
  - apply (save_student_is_Some _ _ _ _ _ _ Hs).
    destruct (decide (pk = k)) as [->|Hne].
    + rewrite lookup_insert_eq in Hr. by injection Hr as <-.
    + rewrite lookup_insert_ne in Hr by done.
      by pose proof (Hok k r Hr) as [? _]%write_allowed_iff.
  - intros k' r' Hr' Hk'. rewrite Hrows in Hr'.
    destruct (decide (pk = k)) as [->|Hne].
    + rewrite lookup_insert_eq in Hr. injection Hr as <-.
      rewrite lookup_insert_ne in Hr' by done. by eapply Hall.
    + rewrite lookup_insert_ne in Hr by done.
      destruct (decide (pk = k')) as [->|Hne'].
      * rewrite lookup_insert_eq in Hr'. injection Hr' as <-.
        intros [H1 H2]. by apply (Hall k r Hr).
      * rewrite lookup_insert_ne in Hr' by done.
        pose proof (Hok k r Hr) as [_ Hall']%write_allowed_iff. by eapply Hall'.
Qed.

Lemma set_status_returns today pk s db r :
  ledger_ok db -> fee_rows db !! pk = Some r ->
  exists db', save today pk (with_status s r) db = Return db'.
Proof.
  intros Hok Hr. apply save_completes.
  destruct (pre_save_other_fields today (with_status s r)) as (Hst & Hmo & _).
  rewrite (write_allowed_ext pk _ r db Hst Hmo). by apply Hok.
Qed.

(** X5. The table constraints are an invariant of [save]: on a ledger where
    every stored fee row has an existing student and a student and month of
    its own, a completed [save] gives such a ledger again. *)
Theorem save_keeps_ledger_ok today pk self db db' :
  ledger_ok db -> save today pk self db = Return db' -> ledger_ok db'.
Proof.
  intros Hok Hs. exact (save_keeps_ok today pk self db db' Hok Hs).
Qed.

Lemma save_keeps_ledger_ok_witness :
  (ledger_ok ledger_A /\ save 75 1 (fee_jan paid) ledger_A = Return ledger_B) /\
  ledger_ok ledger_B.
Proof.
  assert (Hok : ledger_ok ledger_A) by (apply ledger_okb_ok; vm_compute; reflexivity).
  assert (Hs : save 75 1 (fee_jan paid) ledger_A = Return ledger_B)
    by (vm_compute; reflexivity).
  split; [by split|].
  exact (save_keeps_ledger_ok 75 1 (fee_jan paid) ledger_A ledger_B Hok Hs).
Defined.

(** X6. On such a ledger [set_status] on a stored record never raises: a
    change of status cannot break a constraint. *)
Theorem set_status_never_raises today pk s db r :
  ledger_ok db -> fee_rows db !! pk = Some r ->
  exists db', set_status today pk s db = Return db' /\ ledger_ok db'.
Proof.
  intros Hok Hr. destruct (set_status_returns today pk s db r Hok Hr) as [db' Hs].
  exists db'. unfold set_status. rewrite Hr. cbn. split; [exact Hs|].
  by eapply save_keeps_ok.
Qed.

Lemma set_status_never_raises_witness :
  (ledger_ok ledger_A /\ fee_rows ledger_A !! 2%nat = Some (fee_feb overdue)) /\
  exists db', set_status 75 2 waived ledger_A = Return db' /\ ledger_ok db'.
Proof.
  assert (Hok : ledger_ok ledger_A) by (apply ledger_okb_ok; vm_compute; reflexivity).
  assert (Hr : fee_rows ledger_A !! 2%nat = Some (fee_feb overdue))
    by (vm_compute; reflexivity).
  split; [by split|].
  exact (set_status_never_raises 75 2 waived ledger_A (fee_feb overdue) Hok Hr).
Defined.

(** ** Bulk actions, continued *)

Lemma saved_alike_snapshot today s db qs : snapshot_of db qs -> saved_alike today s db qs.
Proof.
  intros Hsnap. eapply Forall_impl; [exact Hsnap|].
  intros [k f] Hk. cbn in *. eauto.
Qed.

Lemma saved_alike_step today s db db' pk fee rest :
  saved_alike today s db ((pk, fee) :: rest) ->
  save today pk (with_status s fee) db = Return db' ->
  saved_alike today s db' rest.
Proof.
  intros [(r & Hr & Heq) Hrest]%Forall_cons Hs. cbn in Hr, Heq.
  apply save_fee_rows in Hs as Hrows.
  eapply Forall_impl; [exact Hrest|].
  intros [k f] (r0 & Hr0 & Heq0). cbn in *.
  rewrite Hrows. destruct (decide (pk = k)) as [->|Hne].
  - rewrite lookup_insert_eq. eexists; split; [reflexivity|].
    rewrite Hr in Hr0. injection Hr0 as <-.
    rewrite Heq0, <- Heq.
    rewrite (with_status_same s (pre_save today (with_status s fee)))
      by (rewrite status_pre_save; by destruct fee).
    by rewrite pre_save_idem.
  - rewrite lookup_insert_ne by done. eauto.
Qed.

Lemma mark_selected_cons today s pk fee rest db db' :
  mark_selected today s ((pk, fee) :: rest) db = (db', None) ->
  exists db1, save today pk (with_status s fee) db = Return db1 /\
              mark_selected today s rest db1 = (db', None).
Proof.
  cbn. destruct (save today pk (with_status s fee) db) as [db1|e]; [eauto|discriminate].
Qed.

Lemma mark_selected_rows today s qs : forall db db',
  saved_alike today s db qs ->
  mark_selected today s qs db = (db', None) ->
  (forall pk fee, (pk, fee) ∈ qs ->
     fee_rows db' !! pk = Some (pre_save today (with_status s fee))) /\
  (forall k, k ∉ qs.*1 -> fee_rows db' !! k = fee_rows db !! k).
Proof.
  induction qs as [|[pk0 fee0] rest IH]; intros db db' Halike Hrun.
  - cbn in Hrun. injection Hrun as <-. split; [by intros ?? ?%elem_of_nil|done].
  - apply mark_selected_cons in Hrun as (db1 & Hs & Hrun).
    pose proof (saved_alike_step _ _ _ _ _ _ _ Halike Hs) as Halike1.
    destruct (IH db1 db' Halike1 Hrun) as [Hin Hout].
    pose proof (save_fee_rows _ _ _ _ _ Hs) as Hrows.
    split.
    + intros pk fee [[= -> ->]|Hel]%elem_of_cons; [|by apply Hin].
      destruct (decide (pk0 ∈ rest.*1)) as [Hmem|Hmem].
      * apply list_elem_of_fmap in Hmem as ([k f] & -> & Hkf). cbn.
        rewrite (Hin k f Hkf). f_equal.
        apply Forall_cons in Halike as [(r & Hr & Heq) Hrest]. cbn in Hr, Heq.
        rewrite Forall_forall in Hrest.
        destruct (Hrest (k, f) Hkf) as (r' & Hr' & Heq'). cbn in Hr', Heq'.
        congruence.
      * rewrite (Hout pk0 Hmem), Hrows. by rewrite lookup_insert_eq.
    + intros k Hk. cbn in Hk. apply not_elem_of_cons in Hk as [Hne Hk].
      rewrite (Hout k Hk), Hrows. by rewrite lookup_insert_ne.
Qed.

(** X7. After a bulk action that ran to its end on a snapshot queryset, every
    selected record is stored with the chosen status, with the paid date that
    goes with it and with its student, month and fees unchanged; the records
    that were not selected are untouched. *)
Theorem mark_selected_final_rows today s qs db db' :
  snapshot_of db qs ->
  mark_selected today s qs db = (db', None) ->
  (forall pk fee, (pk, fee) ∈ qs ->
     exists r', fee_rows db' !! pk = Some r' /\
       status r' = s /\
       paid_date r' =
         match s with
         | paid => match paid_date fee with
                   | None => Some today
                   | Some d => Some d
                   end
         | _ => None
         end /\
       student r' = student fee /\ month r' = month fee /\ fees r' = fees fee) /\
  (forall k, k ∉ qs.*1 -> fee_rows db' !! k = fee_rows db !! k).
Proof.
  intros Hsnap Hrun.
  destruct (mark_selected_rows today s qs db db' (saved_alike_snapshot _ _ _ _ Hsnap) Hrun)
    as [Hin Hout].
  split; [|exact Hout]. intros pk fee Hel. eexists. split; [by apply Hin|].
  rewrite status_pre_save, paid_date_pre_save.
  destruct (pre_save_other_fields today (with_status s fee)) as (-> & -> & -> & _).
  by destruct fee.
Qed.

Lemma mark_selected_final_rows_witness :
  (snapshot_of ledger_A [(1%nat, fee_jan overdue); (2%nat, fee_feb overdue)] /\
   mark_selected 75 paid [(1%nat, fee_jan overdue); (2%nat, fee_feb overdue)] ledger_A
   = (ledger_all_paid, None)) /\
  (forall k, k ∉ [1%nat; 2%nat] -> fee_rows ledger_all_paid !! k = fee_rows ledger_A !! k).
Proof.
  assert (Hsnap : snapshot_of ledger_A [(1%nat, fee_jan overdue); (2%nat, fee_feb overdue)])
    by (repeat constructor).
  assert (Hrun : mark_selected 75 paid [(1%nat, fee_jan overdue); (2%nat, fee_feb overdue)]
                   ledger_A = (ledger_all_paid, None)) by (vm_compute; reflexivity).
  split; [by split|].
  exact (proj2 (mark_selected_final_rows 75 paid _ ledger_A ledger_all_paid Hsnap Hrun)).
Defined.

Lemma mark_selected_returns today s qs : forall db,
  ledger_ok db -> saved_alike today s db qs ->
  exists db', mark_selected today s qs db = (db', None) /\ ledger_ok db'.
Proof.
  induction qs as [|[pk fee] rest IH]; intros db Hok Halike; [by exists db|].
  pose proof Halike as [(r & Hr & Heq) _]%Forall_cons. cbn in Hr, Heq.
  destruct (set_status_returns today pk s db r Hok Hr) as [db1 Hs].
  rewrite <- (save_ext today pk _ _ db Heq) in Hs.
  destruct (IH db1 (save_keeps_ok _ _ _ _ _ Hok Hs)
              (saved_alike_step _ _ _ _ _ _ _ Halike Hs)) as (db' & Hrun & Hok').
  exists db'. cbn. by rewrite Hs.
Qed.

(** X8. On a ledger that satisfies the table constraints, a bulk action on a
    snapshot queryset runs to its end without exception, and the ledger still
    satisfies the constraints. *)
Theorem mark_selected_never_raises today s qs db :
  ledger_ok db -> snapshot_of db qs ->
  exists db', mark_selected today s qs db = (db', None) /\ ledger_ok db'.
Proof.
  intros Hok Hsnap. apply mark_selected_returns; [done|].
  by apply saved_alike_snapshot.
Qed.

Lemma mark_selected_never_raises_witness :
  (ledger_ok ledger_A /\
   snapshot_of ledger_A [(1%nat, fee_jan overdue); (2%nat, fee_feb overdue)]) /\
  exists db',
    mark_selected 75 waived [(1%nat, fee_jan overdue); (2%nat, fee_feb overdue)] ledger_A
    = (db', None) /\ ledger_ok db'.
Proof.
  assert (Hok : ledger_ok ledger_A) by (apply ledger_okb_ok; vm_compute; reflexivity).
  assert (Hsnap : snapshot_of ledger_A [(1%nat, fee_jan overdue); (2%nat, fee_feb overdue)])
    by (repeat constructor).
  split; [by split|].
  exact (mark_selected_never_raises 75 waived _ ledger_A Hok Hsnap).
Defined.

(** ** Flags under a bulk action *)

Lemma save_flag_other today pk self db db' r s' :
  fee_rows db !! pk = Some r -> student r = student self ->
  save today pk self db = Return db' ->
  s' <> student self ->
  flag_consistent db s' -> flag_consistent db' s'.
Proof.
  intros Hr Hsame Hs Hne (st & Hst & Hact).
  exists st. rewrite (save_student_rows_ne _ _ _ _ _ _ Hs Hne). split; [exact Hst|].
  destruct (save_totals _ _ _ _ _ _ s' Hr Hs) as [_ Hcount].
  rewrite !decide_False in Hcount by congruence.
  replace (overdue_count db' s') with (overdue_count db s') by lia. exact Hact.
Qed.

Lemma saved_alike_student today s db pk fee rest :
  saved_alike today s db ((pk, fee) :: rest) ->
  exists r, fee_rows db !! pk = Some r /\ student r = student fee.
Proof.
  intros [(r & Hr & Heq) _]%Forall_cons. cbn in Hr, Heq. exists r. split; [exact Hr|].
  destruct (pre_save_other_fields today (with_status s fee)) as (H1 & _).
  destruct (pre_save_other_fields today (with_status s r)) as (H2 & _).
  cbn in H1, H2. congruence.
Qed.

Lemma mark_selected_flags_kept today s qs : forall db db',
  saved_alike today s db qs ->
  mark_selected today s qs db = (db', None) ->
  forall s', flag_consistent db s' -> flag_consistent db' s'.
Proof.
  induction qs as [|[pk fee] rest IH]; intros db db' Halike Hrun s' Hflag.
  - cbn in Hrun. by injection Hrun as <-.
  - destruct (saved_alike_student _ _ _ _ _ _ Halike) as (r & Hr & Hsame).
    apply mark_selected_cons in Hrun as (db1 & Hs & Hrun).
    apply (IH db1 db' (saved_alike_step _ _ _ _ _ _ _ Halike Hs) Hrun).
    destruct (decide (s' = student fee)) as [->|Hne].
    + exact (save_recomputes_is_active _ _ _ _ _ Hs).
    + by eapply (save_flag_other _ _ (with_status s fee)).
Qed.

Lemma mark_selected_flags_set today s qs : forall db db',
  saved_alike today s db qs ->
  mark_selected today s qs db = (db', None) ->
  forall pk fee, (pk, fee) ∈ qs -> flag_consistent db' (student fee).
Proof.
  induction qs as [|[pk0 fee0] rest IH]; intros db db' Halike Hrun pk fee Hel;
    [by apply elem_of_nil in Hel|].
  apply mark_selected_cons in Hrun as (db1 & Hs & Hrun).
  pose proof (saved_alike_step _ _ _ _ _ _ _ Halike Hs) as Halike1.
  apply elem_of_cons in Hel as [[= -> ->]|Hel].
  - apply (mark_selected_flags_kept _ _ _ _ _ Halike1 Hrun).
    exact (save_recomputes_is_active _ _ _ _ _ Hs).
  - by eapply IH.
Qed.

(** X9. After a bulk action that ran to its end on a snapshot queryset, the
    discontinuation flag of every student with a selected record agrees with
    the student's number of overdue records in the final ledger, and every
    student whose flag agreed before still has a flag that agrees. *)
Theorem mark_selected_flags today s qs db db' :
  snapshot_of db qs ->
  mark_selected today s qs db = (db', None) ->
  (forall pk fee, (pk, fee) ∈ qs -> flag_consistent db' (student fee)) /\
  (forall s', flag_consistent db s' -> flag_consistent db' s').
Proof.
  intros Hsnap%(saved_alike_snapshot today s) Hrun. split.
  - by eapply mark_selected_flags_set.
  - by eapply mark_selected_flags_kept.
Qed.

Lemma mark_selected_flags_witness :
  (snapshot_of ledger_A [(1%nat, fee_jan overdue); (2%nat, fee_feb overdue)] /\
   mark_selected 75 paid [(1%nat, fee_jan overdue); (2%nat, fee_feb overdue)] ledger_A
   = (ledger_all_paid, None)) /\
  (forall s', flag_consistent ledger_A s' -> flag_consistent ledger_all_paid s').
Proof.
  assert (Hsnap : snapshot_of ledger_A [(1%nat, fee_jan overdue); (2%nat, fee_feb overdue)])
    by (repeat constructor).
  assert (Hrun : mark_selected 75 paid [(1%nat, fee_jan overdue); (2%nat, fee_feb overdue)]
                   ledger_A = (ledger_all_paid, None)) by (vm_compute; reflexivity).
  split; [by split|].
  exact (proj2 (mark_selected_flags 75 paid _ ledger_A ledger_all_paid Hsnap Hrun)).
Defined.

(** ** The guardian's pending amount, continued *)


Lemma save_profile_rows today pk self db db' :
  save today pk self db = Return db' ->
  profile_rows db' =
  match guardian_of db (student self) with
  | Some g =>
      match profile_rows db !! g with
      | Some p =>
          if fits_field (pending_amount p) then
            <[g := mkProfile (student_outstanding db' (student self))]> (profile_rows db)
          else profile_rows db
      | None => profile_rows db
      end
  | None => profile_rows db
  end.
Proof.
  intros Hs. pose proof Hs as [Hw ->]%save_Return.
  apply write_allowed_student in Hw as [st Hst].
  set (w := pre_save today self) in *. set (db1 := mkDB _ _ _).
  assert (Hsw : student w = student self) by apply pre_save_other_fields.
  assert (Hout : student_outstanding (_check_discontinuation w (_update_parent_pending w db1))
                   (student self) = student_outstanding db1 (student w)).
  { rewrite Hsw. unfold student_outstanding. f_equal. apply filter_fees_ext.
    by rewrite fee_rows_check_discontinuation, fee_rows_update_parent_pending. }
  rewrite Hout, profile_rows_check_discontinuation, update_parent_pending_eq.
  unfold guardian_of. rewrite <- Hsw. cbn [student_rows db1]. rewrite Hst. cbn.
  destruct (parent st) as [g|]; [|done].
  cbn [profile_rows db1]. destruct (profile_rows db !! g) as [p|]; [|done].
  by destruct (fits_field (pending_amount p)).
Qed.

(** X2. When the student of the saved record has no guardian, or a guardian
    without profile row, a completed [save] leaves the profile table as it
    was: no profile is changed and none is created. *)
Theorem save_without_guardian_profile today pk self db db' :
  save today pk self db = Return db' ->
  (forall g, guardian_of db (student self) = Some g -> profile_rows db !! g = None) ->
  profile_rows db' = profile_rows db.
Proof.
  intros Hs Hnone. rewrite (save_profile_rows _ _ _ _ _ Hs).
  destruct (guardian_of db (student self)) as [g|]; [|done].
  by rewrite (Hnone g eq_refl).
Qed.

Lemma save_without_guardian_profile_witness :
  save 70 1 (fee_jan unpaid) ledger_no_profile = Return ledger_no_profile_saved /\
  (forall g, guardian_of ledger_no_profile 7 = Some g ->
     profile_rows ledger_no_profile !! g = None) /\
  profile_rows ledger_no_profile_saved = profile_rows ledger_no_profile.
Proof.
  assert (Hs : save 70 1 (fee_jan unpaid) ledger_no_profile = Return ledger_no_profile_saved)
    by (vm_compute; reflexivity).
  assert (Hnone : forall g, guardian_of ledger_no_profile 7 = Some g ->
                    profile_rows ledger_no_profile !! g = None)
    by (intros g _; apply lookup_empty).
  split; [exact Hs|]. split; [exact Hnone|].
  exact (save_without_guardian_profile 70 1 (fee_jan unpaid) ledger_no_profile
           ledger_no_profile_saved Hs Hnone).
Defined.




End FeesMore.

(** * Further properties of the roadmap hierarchy *)

Module RoadmapMore.
Import Roadmap RoadmapFacts.

(** ** The default ordering *)

Lemma insert_by_meta_perm x l : insert_by_meta x l ≡ₚ x :: l.
Proof.
  induction l as [|y l IH]; cbn; [done|].
  destruct (meta_leb x y); [done|]. rewrite IH. apply Permutation_swap.
Qed.

Lemma order_by_meta_perm l : order_by_meta l ≡ₚ l.
Proof.
  induction l as [|x l IH]; cbn; [done|].
  by rewrite insert_by_meta_perm, IH.
Qed.

(** ** The recursion of [get_all_descendants] *)

Section extend.
Context (rec : RoadmapTopic -> option (list RoadmapTopic)).

Lemma extend_with_children_Some children : forall descendants,
  (forall c, c ∈ children -> is_Some (rec c)) ->
  extend_with_children rec children descendants =
  Some (descendants ++ (children ≫= fun c => c :: default [] (rec c))).
Proof.
  induction children as [|c rest IH]; intros acc Hall; cbn.
  - by rewrite app_nil_r.
  - destruct (Hall c) as [ds Hds]; [by left|]. rewrite Hds. cbn.
    rewrite IH by (intros; apply Hall; by right).
    by rewrite <- app_assoc.
Qed.

Lemma extend_with_children_None children c : forall descendants,
  c ∈ children -> rec c = None ->
  extend_with_children rec children descendants = None.
Proof.
  induction children as [|c' rest IH]; intros acc Hc Hnone; [by apply elem_of_nil in Hc|].
  cbn. destruct (rec c') as [ds|] eqn:Hc'; [|done].
  apply elem_of_cons in Hc as [->|Hc]; [congruence|]. by apply IH.
Qed.

Lemma extend_with_children_inv children descendants l :
  extend_with_children rec children descendants = Some l ->
  (forall c, c ∈ children -> is_Some (rec c)) /\
  l = descendants ++ (children ≫= fun c => c :: default [] (rec c)).
Proof.
  intros Hl.
  assert (Hall : forall c, c ∈ children -> is_Some (rec c)).
  { intros c Hc. destruct (rec c) eqn:Hrec; [eauto|].
    by rewrite (extend_with_children_None _ c _ Hc Hrec) in Hl. }
  split; [exact Hall|]. rewrite extend_with_children_Some in Hl by done. congruence.
Qed.

End extend.

Lemma extend_with_children_ext rec1 rec2 children descendants :
  (forall c, c ∈ children -> rec1 c = rec2 c) ->
  extend_with_children rec1 children descendants
  = extend_with_children rec2 children descendants.
Proof.
  revert descendants. induction children as [|c rest IH]; intros acc Hall; [done|].
  cbn. rewrite <- (Hall c) by (by left). destruct (rec1 c); [|done].
  apply IH. intros; apply Hall; by right.
Qed.

Section descendants.
Context (tbl : table).
Hypothesis Hnodup : NoDup (ids tbl).

Lemma NoDup_table : NoDup tbl.
Proof. by apply (NoDup_fmap_1 id). Qed.

Lemma elem_of_subtopics_all x y :
  x ∈ tbl ->
  y ∈ subtopics_all tbl x <-> y ∈ tbl /\ up tbl (id y) = Some (id x).
Proof.
  intros Hx. unfold subtopics_all, subtopics.
  rewrite order_by_meta_perm, list_elem_of_filter.
  split.
  - intros [Hp Hy]. split; [done|]. rewrite up_elem by done.
    unfold parent_within. rewrite Hp.
    rewrite bool_decide_eq_true_2; [done|]. by apply list_elem_of_fmap_2.
  - intros [Hy Hup]. split; [|done]. rewrite up_elem in Hup by done.
    unfold parent_within in Hup. destruct (parent_topic_id y) as [p|]; [|done].
    by case_bool_decide.
Qed.

Lemma NoDup_subtopics_all x : NoDup (subtopics_all tbl x).
Proof.
  unfold subtopics_all, subtopics. rewrite order_by_meta_perm.
  apply NoDup_filter, NoDup_table.
Qed.

(** A child of a topic on a cycle is on the cycle too. *)
Lemma cycle_child x k :
  x ∈ tbl -> anc tbl (S k) (id x) = Some (id x) ->
  exists c, c ∈ subtopics_all tbl x /\ anc tbl (S k) (id c) = Some (id c).
Proof.
  intros Hx Hcyc. pose proof Hcyc as Hcyc'. rewrite anc_S_top in Hcyc'.
  destruct (anc tbl k (id x)) as [ci|] eqn:Hci; [|done]. cbn in Hcyc'.
  destruct (up_Some tbl ci (id x) Hcyc') as (c & Hc & <- & Hp).
  exists c. split.
  - apply elem_of_subtopics_all; [done|]. split; [done|]. by rewrite up_elem.
  - cbn. rewrite Hcyc'. cbn. exact Hci.
Qed.

Lemma descendants_cycle depth : forall x,
  x ∈ tbl -> below tbl (id x) (id x) -> get_all_descendants depth tbl x = None.
Proof.
  induction depth as [|depth IH]; intros x Hx [k Hcyc]; [done|].
  destruct (cycle_child x k Hx Hcyc) as (c & Hc & Hcyc').
  cbn. apply (extend_with_children_None _ _ c); [done|].
  apply IH; [|by exists k]. by apply elem_of_subtopics_all in Hc as [? _].
Qed.

Lemma below_child c x y :
  up tbl c = Some x -> below tbl y c -> below tbl y x.
Proof.
  intros Hup [k Hk]. exists (S k). by rewrite anc_S_top, Hk.
Qed.

Lemma descendants_elem depth : forall x l,
  x ∈ tbl -> get_all_descendants depth tbl x = Some l ->
  forall y, y ∈ l <-> y ∈ tbl /\ below tbl (id y) (id x).
Proof.
  induction depth as [|depth IH]; intros x l Hx; [done|].
  cbn. intros [Hall ->]%extend_with_children_inv y. cbn.
  rewrite list_elem_of_bind. split.
  - intros (c & Hy & Hc). pose proof Hc as [Hct Hup]%elem_of_subtopics_all; [|done].
    apply elem_of_cons in Hy as [->|Hy].
    + split; [done|]. exists 0%nat. cbn. rewrite Hup. done.
    + destruct (Hall c Hc) as [ds Hds]. rewrite Hds in Hy. cbn in Hy.
      apply (IH c ds Hct Hds) in Hy as [Hyt Hbelow]. split; [done|].
      by eapply below_child.
  - intros [Hy [k Hk]]. rewrite anc_S_top in Hk.
    destruct (anc tbl k (id y)) as [ci|] eqn:Hci; [|done]. cbn in Hk.
    destruct (up_Some tbl ci (id x) Hk) as (c & Hc & <- & Hp).
    assert (Hcs : c ∈ subtopics_all tbl x).
    { apply elem_of_subtopics_all; [done|]. split; [done|]. by rewrite up_elem. }
    exists c. split; [|done].
    destruct k as [|k].
    + cbn in Hci. injection Hci as Hid.
      assert (y = c) as -> by exact (id_inj tbl Hnodup y c Hy Hc Hid). by left.
    + right. destruct (Hall c Hcs) as [ds Hds]. rewrite Hds. cbn.
      apply (IH c ds Hc Hds). split; [done|]. by exists k.
Qed.

Lemma descendants_not_self depth x l :
  x ∈ tbl -> get_all_descendants depth tbl x = Some l -> x ∉ l.
Proof.
  intros Hx Hl Hin. apply (descendants_elem depth x l Hx Hl) in Hin as [_ Hcyc].
  by rewrite (descendants_cycle depth x Hx Hcyc) in Hl.
Qed.

Lemma below_trans i j k : below tbl i j -> below tbl j k -> below tbl i k.
Proof.
  intros [a Ha] [b Hb]. exists (a + S b)%nat.
  replace (S (a + S b)) with (S a + S b)%nat by lia.
  by rewrite anc_add, Ha.
Qed.

(** Two topics with a common descendant or equal-or-below relation: one of
    them is the other or lies below it. *)
Lemma below_both y c1 c2 :
  below tbl y c1 -> below tbl y c2 -> c1 = c2 \/ below tbl c1 c2 \/ below tbl c2 c1.
Proof.
  intros [k1 H1] [k2 H2].
  destruct (decide (k1 = k2)) as [->|Hne]; [left; congruence|].
  right. destruct (decide (k1 < k2)%nat).
  - left. exists (k2 - k1 - 1)%nat.
    replace (S k2) with (S k1 + S (k2 - k1 - 1))%nat in H2 by lia.
    by rewrite anc_add, H1 in H2.
  - right. exists (k1 - k2 - 1)%nat.
    replace (S k1) with (S k2 + S (k1 - k2 - 1))%nat in H1 by lia.
    by rewrite anc_add, H2 in H1.
Qed.

(** A child of [x] that lies below another child of [x] puts [x] on a
    cycle. *)
Lemma sibling_below_cycle x c1 c2 :
  up tbl c1 = Some x -> up tbl c2 = Some x -> below tbl c1 c2 -> below tbl x x.
Proof.
  intros Hup1 Hup2 [k Hk]. cbn in Hk. rewrite Hup1 in Hk. cbn in Hk.
  exists k. by rewrite anc_S_top, Hk.
Qed.

Lemma NoDup_descendants depth : forall x l,
  x ∈ tbl -> get_all_descendants depth tbl x = Some l -> NoDup l.
Proof.
  induction depth as [|depth IH]; intros x l Hx Hl; [done|].
  assert (Hnocyc : ~ below tbl (id x) (id x)).
  { intros Hcyc. by rewrite (descendants_cycle _ x Hx Hcyc) in Hl. }
  cbn in Hl. apply extend_with_children_inv in Hl as [Hall ->]. cbn.
  assert (Hsub : forall c, c ∈ subtopics_all tbl x ->
            c ∈ tbl /\ up tbl (id c) = Some (id x) /\
            exists ds, get_all_descendants depth tbl c = Some ds /\
              default [] (get_all_descendants depth tbl c) = ds).
  { intros c Hc. pose proof Hc as [Hct Hup]%elem_of_subtopics_all; [|done].
    destruct (Hall c Hc) as [ds Hds]. rewrite Hds. eauto. }
  assert (Hrel : forall c y, c ∈ subtopics_all tbl x ->
            y ∈ c :: default [] (get_all_descendants depth tbl c) ->
            y ∈ tbl /\ (y = c \/ below tbl (id y) (id c))).
  { intros c y Hc Hy. destruct (Hsub c Hc) as (Hct & Hup & ds & Hds & Hdef).
    rewrite Hdef in Hy. apply elem_of_cons in Hy as [->|Hy]; [by auto|].
    apply (descendants_elem depth c ds Hct Hds) in Hy as [? ?]. auto. }
  apply NoDup_bind; [| |apply NoDup_subtopics_all].
  - intros c1 c2 y Hc1 Hc2 Hy1 Hy2.
    destruct (Hsub c1 Hc1) as (Hct1 & Hup1 & _).
    destruct (Hsub c2 Hc2) as (Hct2 & Hup2 & _).
    destruct (Hrel c1 y Hc1 Hy1) as [Hyt [Heq1|Hb1]];
      destruct (Hrel c2 y Hc2 Hy2) as [_ [Heq2|Hb2]].
    + congruence.
    + subst y. destruct Hnocyc. by eapply (sibling_below_cycle _ (id c1) (id c2)).
    + subst y. destruct Hnocyc. by eapply (sibling_below_cycle _ (id c2) (id c1)).
    + destruct (below_both _ _ _ Hb1 Hb2) as [Heq|[Hb|Hb]].
      * by apply (id_inj tbl Hnodup).
      * destruct Hnocyc. by eapply (sibling_below_cycle _ (id c1) (id c2)).
      * destruct Hnocyc. by eapply (sibling_below_cycle _ (id c2) (id c1)).
  - intros c Hc. destruct (Hsub c Hc) as (Hct & Hup & ds & Hds & Hdef).
    rewrite Hdef. apply NoDup_cons. split.
    + by eapply descendants_not_self.
    + by eapply IH.
Qed.

Lemma descendants_more_depth depth : forall x l,
  get_all_descendants depth tbl x = Some l ->
  get_all_descendants (S depth) tbl x = Some l.
Proof.
  induction depth as [|depth IH]; intros x l Hl; [done|].
  change (extend_with_children (get_all_descendants (S depth) tbl)
            (subtopics_all tbl x) [] = Some l).
  cbn in Hl. rewrite <- Hl. apply extend_with_children_ext.
  intros c Hc. apply extend_with_children_inv in Hl as [Hall _].
  destruct (Hall c Hc) as [ds Hds]. rewrite Hds. by apply IH.
Qed.

Lemma descendants_returns depth : forall x dx,
  x ∈ tbl -> chain_ends tbl (id x) dx -> (length tbl <= depth + dx)%nat ->
  is_Some (get_all_descendants depth tbl x).
Proof.
  induction depth as [|depth IH]; intros x dx Hx Hdx Hlen.
  - pose proof (chain_ends_bound tbl Hnodup _ _ Hdx). lia.
  - cbn. rewrite extend_with_children_Some; [eauto|].
    intros c [Hc Hup]%elem_of_subtopics_all; [|done].
    apply (IH c (S dx)); [done| |lia].
    rewrite up_elem in Hup by done. by eapply chain_step.
Qed.

(** The recursion reaches every topic below [x]. *)
Lemma descendants_reaches depth : forall x l y k,
  x ∈ tbl -> y ∈ tbl ->
  get_all_descendants depth tbl x = Some l ->
  anc tbl (S k) (id y) = Some (id x) ->
  exists depth', is_Some (get_all_descendants depth' tbl y).
Proof.
  induction depth as [|depth IH]; intros x l y k Hx Hy Hl Hk; [done|].
  cbn in Hl. apply extend_with_children_inv in Hl as [Hall _].
  rewrite anc_S_top in Hk.
  destruct (anc tbl k (id y)) as [ci|] eqn:Hci; [|done]. cbn in Hk.
  destruct (up_Some tbl ci (id x) Hk) as (c & Hc & <- & Hp).
  assert (Hcs : c ∈ subtopics_all tbl x).
  { apply elem_of_subtopics_all; [done|]. split; [done|]. by rewrite up_elem. }
  destruct (Hall c Hcs) as [ds Hds].
  destruct k as [|k].
  - cbn in Hci. injection Hci as Hid.
    assert (y = c) as -> by exact (id_inj tbl Hnodup y c Hy Hc Hid). eauto.
  - by eapply (IH c ds y k).
Qed.

(** Depths along the way down. *)
Lemma parent_within_key y p : parent_within tbl y = Some p -> parent_topic_id y = Some p.
Proof.
  unfold parent_within. destruct (parent_topic_id y) as [q|]; [|done].
  by case_bool_decide.
Qed.

Lemma up_get y p :
  y ∈ tbl -> up tbl (id y) = Some p ->
  parent_topic_id y = Some p /\ exists pt, pt ∈ tbl /\ id pt = p /\ get tbl p = Some pt.
Proof.
  intros Hy Hup. rewrite up_elem in Hup by done. split; [by apply parent_within_key|].
  apply parent_within_ids in Hup as (pt & -> & Hpt)%list_elem_of_fmap.
  exists pt. split; [done|]. split; [done|]. by apply get_elem.
Qed.

Lemma has_depth_below x dx k : forall y,
  x ∈ tbl -> y ∈ tbl -> has_depth tbl x dx ->
  anc tbl (S k) (id y) = Some (id x) -> has_depth tbl y (dx + S k).
Proof.
  induction k as [|k IH]; intros y Hx Hy Hdx Hk.
  - cbn in Hk. destruct (up tbl (id y)) as [p|] eqn:Hup; [|done]. cbn in Hk.
    injection Hk as ->. destruct (up_get y _ Hy Hup) as (Hp & pt & Hpt & Hid & Hget).
    assert (pt = x) as -> by exact (id_inj tbl Hnodup pt x Hpt Hx Hid).
    replace (dx + 1)%nat with (S dx) by lia. by eapply depth_child.
  - change (anc tbl (S (S k)) (id y)) with (up tbl (id y) ≫= anc tbl (S k)) in Hk.
    destruct (up tbl (id y)) as [p|] eqn:Hup; [|done]. cbn [mbind option_bind] in Hk.
    destruct (up_get y _ Hy Hup) as (Hp & pt & Hpt & <- & Hget).
    replace (dx + S (S k))%nat with (S (dx + S k)) by lia.
    eapply depth_child; [exact Hp | exact Hget |]. by apply IH.
Qed.

End descendants.

(** X11. When [get_all_descendants] returns on a topic of a table with
    distinct ids, the list has no duplicates, does not contain the topic
    itself, and contains exactly the topics of the table that lie below it
    (that reach it in one or more steps up). *)
Theorem get_all_descendants_lists_below depth tbl self l :
  NoDup (ids tbl) -> self ∈ tbl ->
  get_all_descendants depth tbl self = Some l ->
  NoDup l /\ (self ∉ l) /\
  forall y, y ∈ l <-> y ∈ tbl /\ below tbl (id y) (id self).
Proof.
  intros Hnodup Hself Hl. split; [|split].
  - by eapply NoDup_descendants.
  - by eapply descendants_not_self.
  - by eapply descendants_elem.
Qed.

Lemma get_all_descendants_lists_below_witness :
  (NoDup (ids chain_table) /\ root_topic ∈ chain_table /\
   get_all_descendants 3 chain_table root_topic = Some [child_topic; grandchild_topic]) /\
  NoDup [child_topic; grandchild_topic] /\
  (root_topic ∉ [child_topic; grandchild_topic]).
Proof.
  assert (H1 : NoDup (ids chain_table))
    by (apply (bool_decide_unpack _); vm_compute; exact I).
  assert (H2 : root_topic ∈ chain_table) by (by left).
  assert (H3 : get_all_descendants 3 chain_table root_topic
               = Some [child_topic; grandchild_topic]) by reflexivity.
  split; [by repeat split|].
  destruct (get_all_descendants_lists_below 3 chain_table root_topic _ H1 H2 H3)
    as (Hnd & Hself & _).
  split; [exact Hnd | exact Hself].
Defined.

(** X12. On a table with distinct ids and no cycle of parent links,
    [get_all_descendants] returns as soon as the allowed depth of nested calls
    is at least the number of topics, and a larger allowance gives the same
    list. *)
Theorem get_all_descendants_returns depth tbl self :
  NoDup (ids tbl) -> acyclic tbl -> self ∈ tbl ->
  (length tbl <= depth)%nat ->
  exists l, forall more, get_all_descendants (depth + more) tbl self = Some l.
Proof.
  intros Hnodup Hacyc Hself Hlen. destruct (Hacyc self Hself) as [dx Hdx].
  destruct (descendants_returns tbl Hnodup depth self dx Hself Hdx ltac:(lia)) as [l Hl].
  exists l. induction more as [|more IH].
  - by rewrite Nat.add_0_r.
  - replace (depth + S more)%nat with (S (depth + more)) by lia.
    by apply descendants_more_depth.
Qed.

Lemma get_all_descendants_returns_witness :
  (NoDup (ids chain_table) /\ acyclic chain_table /\ root_topic ∈ chain_table /\
   (length chain_table <= 3)%nat) /\
  exists l, forall more, get_all_descendants (3 + more) chain_table root_topic = Some l.
Proof.
  assert (H1 : NoDup (ids chain_table))
    by (apply (bool_decide_unpack _); vm_compute; exact I).
  assert (H2 : root_topic ∈ chain_table) by (by left).
  assert (H3 : (length chain_table <= 3)%nat) by (cbn; lia).
  split; [by auto using acyclic_chain_table|].
  exact (get_all_descendants_returns 3 chain_table root_topic H1 acyclic_chain_table H2 H3).
Defined.

(** X13. [get_all_descendants] has no guard against cycles either: when the
    topic, or a topic below it, is its own ancestor, the call does not return
    within any allowed depth of nested calls. *)
Theorem get_all_descendants_cycle depth tbl self y :
  NoDup (ids tbl) -> self ∈ tbl -> y ∈ tbl ->
  y = self \/ below tbl (id y) (id self) ->
  below tbl (id y) (id y) ->
  get_all_descendants depth tbl self = None.
Proof.
  intros Hnodup Hself Hy Hrel Hcyc.
  destruct (get_all_descendants depth tbl self) as [l|] eqn:Hl; [|done].
  destruct Hrel as [->|[k Hk]].
  - by rewrite (descendants_cycle tbl Hnodup depth self Hself Hcyc) in Hl.
  - destruct (descendants_reaches tbl Hnodup depth self l y k Hself Hy Hl Hk)
      as [depth' [ds Hds]].
    by rewrite (descendants_cycle tbl Hnodup depth' y Hy Hcyc) in Hds.
Qed.

Lemma get_all_descendants_cycle_witness :
  (NoDup (ids cyclic_table) /\ cycle_topic ∈ cyclic_table /\
   below cyclic_table (id cycle_topic) (id cycle_topic)) /\
  get_all_descendants 1000 cyclic_table cycle_topic = None.
Proof.
  assert (H1 : NoDup (ids cyclic_table))
    by (apply (bool_decide_unpack _); vm_compute; exact I).
  assert (H2 : cycle_topic ∈ cyclic_table) by (by left).
  assert (H3 : below cyclic_table (id cycle_topic) (id cycle_topic))
    by (exists 1%nat; vm_compute; reflexivity).
  split; [by repeat split|].
  exact (get_all_descendants_cycle 1000 cyclic_table cycle_topic cycle_topic
           H1 H2 H2 (or_introl eq_refl) H3).
Defined.

(** X14. Every topic listed by [get_all_descendants] is strictly deeper than
    the topic asked about: where [get_level] gives [d] for the topic, it gives
    [d + k + 1] for the listed one, for some [k]. *)
Theorem descendants_are_deeper depth fuel tbl self l d y :
  NoDup (ids tbl) -> self ∈ tbl ->
  get_all_descendants depth tbl self = Some l ->
  get_level fuel tbl self = Some (Return d) ->
  y ∈ l ->
  exists k, forall fuel', (d + S k <= fuel')%nat ->
    get_level fuel' tbl y = Some (Return (d + S k)%nat).
Proof.
  intros Hnodup Hself Hl Hlevel Hy.
  apply (descendants_elem tbl Hnodup depth self l Hself Hl) in Hy as [Hyt [k Hk]].
  apply get_level_returns in Hlevel.
  pose proof (has_depth_below tbl Hnodup self d k y Hself Hyt Hlevel Hk) as Hd.
  exists k. intros fuel' Hle.
  replace fuel' with ((d + S k) + (fuel' - (d + S k)))%nat by lia.
  by apply get_level_of_depth.
Qed.

Lemma descendants_are_deeper_witness :
  (NoDup (ids chain_table) /\ root_topic ∈ chain_table /\
   get_all_descendants 3 chain_table root_topic = Some [child_topic; grandchild_topic] /\
   get_level 0 chain_table root_topic = Some (Return 0%nat) /\
   grandchild_topic ∈ [child_topic; grandchild_topic]) /\
  exists k, forall fuel', (0 + S k <= fuel')%nat ->
    get_level fuel' chain_table grandchild_topic = Some (Return (0 + S k)%nat).
Proof.
  assert (H1 : NoDup (ids chain_table))
    by (apply (bool_decide_unpack _); vm_compute; exact I).
  assert (H2 : root_topic ∈ chain_table) by (by left).
  assert (H3 : get_all_descendants 3 chain_table root_topic
               = Some [child_topic; grandchild_topic]) by reflexivity.
  assert (H4 : get_level 0 chain_table root_topic = Some (Return 0%nat)) by reflexivity.
  assert (H5 : grandchild_topic ∈ [child_topic; grandchild_topic]) by (right; by left).
  split; [by repeat split|].
  exact (descendants_are_deeper 3 0 chain_table root_topic _ 0 grandchild_topic
           H1 H2 H3 H4 H5).
Defined.

(** X15. Every topic returned by [get_children] is a row of the table whose
    parent key is the topic's id, and it is exactly one level deeper: where
    [get_level] gives [d] for the topic, it gives [d + 1] for the child. *)
Theorem children_are_one_deeper fuel tbl self d c :
  NoDup (ids tbl) -> self ∈ tbl ->
  get_level fuel tbl self = Some (Return d) ->
  c ∈ get_children tbl self ->
  c ∈ tbl /\ parent_topic_id c = Some (id self) /\
  forall fuel', (S d <= fuel')%nat -> get_level fuel' tbl c = Some (Return (S d)).
Proof.
  intros Hnodup Hself Hlevel Hc.
  unfold get_children in Hc. rewrite order_by_order_perm in Hc.
  apply list_elem_of_filter in Hc as [Hp Hct].
  split; [done|]. split; [done|]. intros fuel' Hle.
  apply get_level_returns in Hlevel.
  replace fuel' with (S d + (fuel' - S d))%nat by lia.
  apply get_level_of_depth. eapply depth_child; [exact Hp| |exact Hlevel].
  by apply get_elem.
Qed.

Lemma children_are_one_deeper_witness :
  (NoDup (ids chain_table) /\ child_topic ∈ chain_table /\
   get_level 1 chain_table child_topic = Some (Return 1%nat) /\
   grandchild_topic ∈ get_children chain_table child_topic) /\
  forall fuel', (2 <= fuel')%nat ->
    get_level fuel' chain_table grandchild_topic = Some (Return 2%nat).
Proof.
  assert (H1 : NoDup (ids chain_table))
    by (apply (bool_decide_unpack _); vm_compute; exact I).
  assert (H2 : child_topic ∈ chain_table) by (right; by left).
  assert (H3 : get_level 1 chain_table child_topic = Some (Return 1%nat)) by reflexivity.
  assert (H4 : grandchild_topic ∈ get_children chain_table child_topic).
  { replace (get_children chain_table child_topic) with [grandchild_topic] by reflexivity.
    by left. }
  split; [by repeat split|].
  exact (proj2 (proj2 (children_are_one_deeper 1 chain_table child_topic 1
                         grandchild_topic H1 H2 H3 H4))).
Defined.

(** ** The built forest, whatever the parent links *)

(** X16. For topics with distinct, nonzero ids, whatever their parent links:
    the list returned by [_build_topic_tree] holds the topics without parent
    within the collection, in the order of the collection; the node of each
    topic carries the topic's id, title, status, badge class and description,
    its children are the topics whose parent it is, in the order of the
    collection, and it has test entries exactly under [include_tests]; no
    other node exists. *)
Theorem build_topic_tree_shape today include_tests topics :
  NoDup (ids topics) -> 0%nat ∉ ids topics ->
  (_build_topic_tree today topics include_tests).2 = orphans topics /\
  (forall x, x ∈ topics ->
     exists n, (_build_topic_tree today topics include_tests).1 !! id x = Some n /\
       n_id n = id x /\ n_name n = title x /\ n_status n = status x /\
       n_badge_class n = get_badge_class x /\ n_description n = description x /\
       n_children n = kids topics (id x) /\
       (is_Some (n_tests n) <-> include_tests = true)) /\
  (forall i, i ∉ ids topics ->
     (_build_topic_tree today topics include_tests).1 !! i = None).
Proof.
  intros Hnodup Hzero. split; [by apply built_roots|]. split.
  - intros x Hx. rewrite built_heap by done. eexists. split; [reflexivity|].
    cbn. repeat (split; [reflexivity|]).
    destruct include_tests; cbn; split; intros H; try done; try (by destruct H); eauto.
  - intros i Hi. unfold _build_topic_tree.
    destruct (link_topics topics (build_nodes today include_tests topics) []) as [_ ->].
    destruct (build_nodes today include_tests topics !! i) as [n|] eqn:Hn; [|done].
    destruct Hi. apply (build_nodes_is_Some today include_tests). eauto.
Qed.

Lemma build_topic_tree_shape_witness :
  (NoDup (ids orphan_table) /\ (0%nat ∉ ids orphan_table)) /\
  (_build_topic_tree 0 orphan_table true).2 = orphans orphan_table /\
  (forall i, i ∉ ids orphan_table -> (_build_topic_tree 0 orphan_table true).1 !! i = None).
Proof.
  assert (H1 : NoDup (ids orphan_table))
    by (apply (bool_decide_unpack _); vm_compute; exact I).
  assert (H2 : 0%nat ∉ ids orphan_table)
    by (apply (bool_decide_unpack _); vm_compute; exact I).
  split; [by split|].
  destruct (build_topic_tree_shape 0 true orphan_table H1 H2) as (Hroots & _ & Hnone).
  split; [exact Hroots | exact Hnone].
Defined.

Section cycles.
Context (topics : list RoadmapTopic).

(** From a topic that is its own ancestor, every number of steps up leads to
    a topic that has a parent within the collection. *)
Lemma cycle_goes_on y j :
  anc topics (S j) y = Some y ->
  forall k, exists z, anc topics k y = Some z /\ is_Some (up topics z).
Proof.
  intros Hcyc.
  assert (Hstep : forall z i, anc topics i z = Some y ->
            exists z' i', up topics z = Some z' /\ anc topics i' z' = Some y).
  { intros z [|i] Hi.
    - cbn in Hi. injection Hi as ->. cbn in Hcyc.
      destruct (up topics y) as [z'|]; [|done]. cbn in Hcyc. eauto.
    - cbn in Hi. destruct (up topics z) as [z'|]; [|done]. cbn in Hi. eauto. }
  assert (Hall : forall k, exists z i, anc topics k y = Some z /\ anc topics i z = Some y).
  { induction k as [|k (z & i & Hz & Hi)]; [by exists y, 0%nat|].
    destruct (Hstep z i Hi) as (z' & i' & Hup & Hi').
    exists z', i'. split; [|done]. by rewrite anc_S_top, Hz. }
  intros k. destruct (Hall k) as (z & i & Hz & Hi).
  exists z. split; [done|]. destruct (Hstep z i Hi) as (z' & _ & -> & _). eauto.
Qed.

End cycles.

(** X17. For topics with distinct, nonzero ids, whatever their parent links,
    everything listed by flattening the built forest is a topic of the
    collection with its parent within the collection, and no listed topic is
    its own ancestor: the topics of a cycle are left out of the forest. *)
Theorem flatten_lists_edges_only today include_tests topics fuel y q :
  NoDup (ids topics) -> 0%nat ∉ ids topics ->
  (y, q) ∈ flatten fuel (_build_topic_tree today topics include_tests) ->
  (y, q) ∈ edges topics /\ ~ below topics y y.
Proof.
  intros Hnodup Hzero. unfold flatten. rewrite built_roots by done.
  intros (r & Hin & [Hr Hup]%elem_of_orphans)%list_elem_of_bind; [|done].
  destruct (flatten_node_elem today include_tests topics Hnodup Hzero _ _ _ _ _ Hr Hin)
    as (k & _ & Hanc & ->).
  split.
  - apply elem_of_edges; [done|]. destruct k as [|k].
    + cbn in Hanc. injection Hanc as ->. done.
    + split; [|done]. cbn in Hanc. destruct (up topics y) eqn:Hy; [|done].
      by apply up_ids in Hy as [? _].
  - intros [j Hcyc]. destruct (cycle_goes_on topics y j Hcyc k) as (z & Hz & [z' Hz']).
    congruence.
Qed.

Lemma flatten_lists_edges_only_witness :
  (NoDup (ids cyclic_table) /\ (0%nat ∉ ids cyclic_table) /\
   (3%nat, None) ∈ flatten 3 (_build_topic_tree 0 cyclic_table false)) /\
  (3%nat, None) ∈ edges cyclic_table /\ ~ below cyclic_table 3 3.
Proof.
  assert (H1 : NoDup (ids cyclic_table))
    by (apply (bool_decide_unpack _); vm_compute; exact I).
  assert (H2 : 0%nat ∉ ids cyclic_table)
    by (apply (bool_decide_unpack _); vm_compute; exact I).
  assert (H3 : (3%nat, None) ∈ flatten 3 (_build_topic_tree 0 cyclic_table false))
    by (rewrite flatten_cycle; by left).
  split; [by repeat split|].
  exact (flatten_lists_edges_only 0 false cyclic_table 3 3%nat None H1 H2 H3).
Defined.

(** X20. [get_children] returns exactly the rows whose parent key is the
    topic's id, each as often as it is stored, by ascending [order]; in
    particular nothing for a topic without subtopics. *)
Theorem get_children_lists_children tbl self :
  (get_children tbl self ≡ₚ filter (fun r => parent_topic_id r = Some (id self)) tbl) /\
  StronglySorted order_le (get_children tbl self) /\
  (forall c, c ∈ get_children tbl self <-> c ∈ tbl /\ parent_topic_id c = Some (id self)) /\
  ((forall c, c ∈ tbl -> parent_topic_id c <> Some (id self)) -> get_children tbl self = []).
Proof.
  assert (Hperm : get_children tbl self ≡ₚ
                  filter (fun r => parent_topic_id r = Some (id self)) tbl)
    by apply order_by_order_perm.
  assert (Hel : forall c, c ∈ get_children tbl self <->
                  c ∈ tbl /\ parent_topic_id c = Some (id self)).
  { intros c. rewrite Hperm, list_elem_of_filter. tauto. }
  split; [exact Hperm|]. split; [apply order_by_order_sorted|]. split; [exact Hel|].
  intros Hnone. destruct (get_children tbl self) as [|c l] eqn:Hc; [done|].
  destruct (proj1 (Hel c) ltac:(by left)) as [Hct Hp]. by destruct (Hnone c Hct).
Qed.

End RoadmapMore.

(** * Properties of the access tests *)

Module AccessFacts.
Import Access.

Lemma role_is role_name p : String.eqb (role p) role_name = true <-> role p = role_name.
Proof. apply String.eqb_eq. Qed.

(** X18. The teacher, student and parent tests need a profile and exclude one
    another: a user passes at most one of them, whatever the superuser flag;
    and who passes the teacher test passes the teacher-or-admin test. *)
Theorem role_tests_exclusive user :
  (teacher_required user = true ->
     is_Some (profile user) /\ student_required user = false /\
     parent_required user = false /\ teacher_or_admin user = true) /\
  (student_required user = true ->
     is_Some (profile user) /\ teacher_required user = false /\
     parent_required user = false) /\
  (parent_required user = true ->
     is_Some (profile user) /\ teacher_required user = false /\
     student_required user = false).
Proof.
  unfold teacher_required, student_required, parent_required, teacher_or_admin,
    is_teacher, is_student, is_parent.
  destruct (profile user) as [p|]; [|by repeat split].
  split; [|split]; intros Hr%role_is; rewrite Hr; repeat split; eauto.
Qed.


End AccessFacts.
